(** * Loss helpers of [models/loss_utils.py]

    A shallow embedding of the four functions of [models/loss_utils.py]
    ([loss_nl], [loss_mse], [loss_xent] and the private [_loss_helper])
    together with the part of the TensorFlow 1.x graph they read and write.

    Numbers.  Scalars and tensor entries are real numbers: the development
    states the arithmetic of the losses, not the rounding of [float32].

    Graph.  [tf.losses.mean_squared_error] and
    [tf.losses.sparse_softmax_cross_entropy] register the loss they return
    in the graph collection [tf.GraphKeys.LOSSES];
    [tf.losses.get_total_loss] and [tf.losses.get_regularization_loss]
    read the collections back.  The collections are therefore explicit
    state, threaded through every call by a small state-and-error monad.

    Names.  [tf.summary.scalar] opens a name scope for the name it is
    given: the tag of the summary is that name once cleaned, prefixed by
    the enclosing name scope and made unique in the graph.  The names in
    use and the current name scope are part of the state as well.  Names
    are ASCII strings. *)

From Stdlib Require Import String Ascii DecimalString DecimalNat.
From Stdlib Require Import Reals Lra Lia List ZArith Bool.
Import ListNotations.

Open Scope R_scope.

(** ** The state-and-error monad of graph construction *)

(** Failures the framework raises; the module itself raises none. *)
Inductive tf_error : Type :=
| ShapeMismatch      (* incompatible static shapes *)
| EmptyAddN          (* [tf.add_n] of an empty list *)
| LabelOutOfRange    (* class label outside [0, num_classes) *)
| InvalidName.       (* a name that is no valid scope or node name *)

Inductive result (A : Type) : Type :=
| Ok (a : A)
| Raise (e : tf_error).

Arguments Ok {A} a.
Arguments Raise {A} e.

(** A summary is the list of (tag, value) records it carries. *)
Definition summary : Type := list (string * R).

(** [Graph._names_in_use]: for a lower-cased name, how often it was taken;
    the latest entry of a name is the one that counts, and a name without
    entry was never taken. *)
Definition names : Type := list (string * nat).

(** The part of the graph the module touches: three collections, the
    names in use and the current name scope (empty at the root).  Of the
    names the calls take, the model records those of the summary scopes;
    the loss ops take names of their own ([total_loss],
    [mean_squared_error], ...), which are not recorded. *)
Record graph : Type := mkGraph {
  LOSSES : list R;                 (* tf.GraphKeys.LOSSES *)
  REGULARIZATION_LOSSES : list R;  (* tf.GraphKeys.REGULARIZATION_LOSSES *)
  SUMMARIES : list summary;        (* tf.GraphKeys.SUMMARIES *)
  names_in_use : names;            (* Graph._names_in_use *)
  name_stack : string              (* Graph._name_stack *)
}.

Definition tf (A : Type) : Type := graph -> result (A * graph).

Definition ret {A : Type} (a : A) : tf A := fun g => Ok (a, g).

Definition raise {A : Type} (e : tf_error) : tf A := fun _ => Raise e.

Definition bind {A B : Type} (m : tf A) (k : A -> tf B) : tf B :=
  fun g => match m g with
           | Ok (a, g') => k a g'
           | Raise e => Raise e
           end.

Definition lift {A : Type} (r : result A) : tf A :=
  fun g => match r with
           | Ok a => Ok (a, g)
           | Raise e => Raise e
           end.

Declare Scope tf_scope.
Delimit Scope tf_scope with tf.
Notation "x <- m ;; k" := (bind m (fun x => k))
  (at level 61, m at next level, right associativity) : tf_scope.
Notation "' p <- m ;; k" := (bind m (fun p => k))
  (at level 61, p pattern, m at next level, right associativity) : tf_scope.

(** ** Tensors *)

(** A float tensor: its static shape and its entries in row-major order. *)
Record tensor : Type := mkTensor {
  shape : list nat;
  values : list R
}.

(** A rank-1 tensor of shape [[batch_size]]. *)
Definition vector (v : list R) : tensor :=
  {| shape := [length v]; values := v |}.

(** ** Framework primitives *)

(** [tf.add_n] over already evaluated scalars. *)
Definition add_n (xs : list R) : R := fold_right Rplus 0 xs.

(** [tf.div_no_nan]: the quotient, and 0 where the divisor is 0. *)
Definition div_no_nan (x y : R) : R :=
  if Req_dec_T y 0 then 0 else x / y.

(** [tf.math.squared_difference], element by element. *)
Fixpoint squared_difference (xs ys : list R) : list R :=
  match xs, ys with
  | x :: xs', y :: ys' => (x - y) * (x - y) :: squared_difference xs' ys'
  | _, _ => []
  end.

(** [_num_present] of [tf.losses]: with a scalar weight broadcast over the
    losses, the number of entries whose weight is not zero. *)
Definition num_present (losses : list R) (weights : R) : nat :=
  length (filter (fun _ => if Req_dec_T weights 0 then false else true) losses).

(** [util.add_loss]: append to the [LOSSES] collection. *)
Definition add_loss (loss : R) : tf unit :=
  fun g => Ok (tt, {| LOSSES := LOSSES g ++ [loss];
                      REGULARIZATION_LOSSES := REGULARIZATION_LOSSES g;
                      SUMMARIES := SUMMARIES g;
                      names_in_use := names_in_use g;
                      name_stack := name_stack g |}).

(** [tf.losses.compute_weighted_loss] with a scalar weight and the reduction
    [SUM_BY_NONZERO_WEIGHTS]: the weighted sum divided by the number of
    entries with a nonzero weight, registered in [LOSSES]. *)
Definition compute_weighted_loss (losses : list R) (weights : R) : tf R :=
  (let weighted := map (fun l => l * weights) losses in
   let loss := div_no_nan (add_n weighted) (INR (num_present losses weights)) in
   _ <- add_loss loss ;;
   ret loss)%tf.

Definition shape_eqb (s1 s2 : list nat) : bool :=
  if list_eq_dec Nat.eq_dec s1 s2 then true else false.

(** [tf.losses.mean_squared_error(labels, predictions)], default weight 1.0
    and default reduction.  The static shapes must agree. *)
Definition mean_squared_error (labels predictions : tensor) : tf R :=
  if shape_eqb (shape predictions) (shape labels)
  then compute_weighted_loss
         (squared_difference (values predictions) (values labels)) 1
  else raise ShapeMismatch.

(** [tf.where(condition, x, y)] on rank-1 tensors of one length. *)
Fixpoint where_ (condition : list bool) (x y : list R) : result (list R) :=
  match condition, x, y with
  | [], [], [] => Ok []
  | c :: cs, a :: x', b :: y' =>
      match where_ cs x' y' with
      | Ok r => Ok ((if c then a else b) :: r)
      | Raise e => Raise e
      end
  | _, _, _ => Raise ShapeMismatch
  end.

(** The largest entry of a row of logits. *)
Definition reduce_max (row : list R) : R :=
  match row with
  | [] => 0
  | z :: zs => fold_right Rmax z zs
  end.

(** One row of [tf.nn.sparse_softmax_cross_entropy_with_logits]: with the
    logits shifted by their maximum [m], the loss of class [label] is
    [ln (sum_k exp (z_k - m)) - (z_label - m)]. *)
Definition sparse_xent_row (label : Z) (row : list R) : result R :=
  if (0 <=? label)%Z && (label <? Z.of_nat (length row))%Z
  then
    let m := reduce_max row in
    let shifted := map (fun z => z - m) row in
    Ok (ln (add_n (map exp shifted)) - nth (Z.to_nat label) shifted 0)
  else Raise LabelOutOfRange.

(** The rows of a batch, one label per row. *)
Fixpoint sparse_xent_rows
  (labels : list Z) (logits : list (list R)) : result (list R) :=
  match labels, logits with
  | [], [] => Ok []
  | l :: ls, row :: rows =>
      match sparse_xent_row l row with
      | Ok x =>
          match sparse_xent_rows ls rows with
          | Ok xs => Ok (x :: xs)
          | Raise e => Raise e
          end
      | Raise e => Raise e
      end
  | _, _ => Raise ShapeMismatch
  end.

(** [tf.nn.sparse_softmax_cross_entropy_with_logits(labels, logits)]: the
    batch lengths of labels and logits are static shapes and are compared
    first, before any label is looked at.  A row holds the logits of at
    least one class. *)
Definition sparse_softmax_cross_entropy_with_logits
  (labels : list Z) (logits : list (list R)) : result (list R) :=
  if (length labels =? length logits)%nat
  then sparse_xent_rows labels logits
  else Raise ShapeMismatch.

(** [tf.losses.sparse_softmax_cross_entropy(labels, logits,
    reduction=SUM_BY_NONZERO_WEIGHTS)], default weight 1.0. *)
Definition sparse_softmax_cross_entropy
  (labels : list Z) (logits : list (list R)) : tf R :=
  (losses <- lift (sparse_softmax_cross_entropy_with_logits labels logits) ;;
   compute_weighted_loss losses 1)%tf.

(** [tf.losses.get_regularization_loss()]: the sum of the regularization
    losses, and the constant 0.0 when there is none. *)
Definition get_regularization_loss : tf R :=
  fun g => match REGULARIZATION_LOSSES g with
           | [] => Ok (0, g)
           | rs => Ok (add_n rs, g)
           end.

(** [tf.losses.get_total_loss(add_regularization_losses)]: [tf.add_n] of
    every loss registered in [LOSSES], followed, when asked, by the
    regularization losses. *)
Definition get_total_loss (add_regularization_losses : bool) : tf R :=
  fun g =>
    let losses :=
      if add_regularization_losses
      then LOSSES g ++ REGULARIZATION_LOSSES g
      else LOSSES g in
    match losses with
    | [] => Raise EmptyAddN
    | _ => Ok (add_n losses, g)
    end.

(** *** Names and name scopes *)

(** [names_in_use.get(key, 0)]. *)
Fixpoint count (key : string) (m : names) : nat :=
  match m with
  | [] => 0%nat
  | (k, n) :: m' => if String.eqb key k then n else count key m'
  end.

(** [key in names_in_use]. *)
Definition in_use (key : string) (m : names) : bool :=
  negb (count key m =? 0)%nat.

(** [names_in_use[key] = n]. *)
Definition mark (key : string) (n : nat) (m : names) : names :=
  (key, n) :: m.

Definition is_upper (a : ascii) : bool :=
  let n := nat_of_ascii a in ((65 <=? n) && (n <=? 90))%nat.

Definition is_lower (a : ascii) : bool :=
  let n := nat_of_ascii a in ((97 <=? n) && (n <=? 122))%nat.

Definition is_digit (a : ascii) : bool :=
  let n := nat_of_ascii a in ((48 <=? n) && (n <=? 57))%nat.

(** [str.lower()] on ASCII. *)
Definition lower_char (a : ascii) : ascii :=
  if is_upper a then ascii_of_nat (nat_of_ascii a + 32) else a.

Fixpoint lower (s : string) : string :=
  match s with
  | EmptyString => EmptyString
  | String a s' => String (lower_char a) (lower s')
  end.

(** ["%d" % n]. *)
Definition decimal (n : nat) : string :=
  NilEmpty.string_of_uint (Nat.to_uint n).

(** ["%s_%d" % (name, i)]. *)
Definition suffixed (name : string) (i : nat) : string :=
  (name ++ "_" ++ decimal i)%string.

(** The loop of [Graph.unique_name]: the first [j] from [i] on for which
    [key_j] is not in use.  Among [length m + 1] candidates one is free,
    which bounds the number of turns. *)
Fixpoint first_free (turns : nat) (key : string) (i : nat) (m : names) : nat :=
  match turns with
  | O => i
  | S turns' =>
      if in_use (suffixed key i) m
      then first_free turns' key (S i) m
      else i
  end.

(** The name under the name scope [stack]. *)
Definition scoped (stack name : string) : string :=
  match stack with
  | EmptyString => name
  | _ => (stack ++ "/" ++ name)%string
  end.

(** [Graph.unique_name(name)] under the name scope [stack]: the name that
    is taken and the names in use afterwards. *)
Definition unique_name (name stack : string) (m : names) : string * names :=
  let name := scoped stack name in
  let key := lower name in
  let i := count key m in
  let m1 := mark key (S i) m in
  match i with
  | O => (name, m1)
  | S _ =>
      let j := first_free (S (length m1)) key i m1 in
      (suffixed name j, mark (suffixed key j) 1 m1)
  end.

(** The characters [clean_tag] keeps: word characters, [-], [/] and [.]. *)
Definition is_tag_char (a : ascii) : bool :=
  is_upper a || is_lower a || is_digit a
  || Ascii.eqb a "_" || Ascii.eqb a "-" || Ascii.eqb a "/" || Ascii.eqb a ".".

Fixpoint replace_illegal (s : string) : string :=
  match s with
  | EmptyString => EmptyString
  | String a s' =>
      String (if is_tag_char a then a else "_"%char) (replace_illegal s')
  end.

Fixpoint lstrip_slash (s : string) : string :=
  match s with
  | String "/" s' => lstrip_slash s'
  | _ => s
  end.

(** [summary_op_util.clean_tag(name)]: illegal characters become [_] and
    leading slashes go. *)
Definition clean_tag (name : string) : string :=
  lstrip_slash (replace_illegal name).

Fixpoint ends_with_slash (s : string) : bool :=
  match s with
  | EmptyString => false
  | String a EmptyString => Ascii.eqb a "/"
  | String _ s' => ends_with_slash s'
  end.

(** [s.rstrip('/')]. *)
Fixpoint rstrip_slash (s : string) : string :=
  match s with
  | EmptyString => EmptyString
  | String a s' =>
      match rstrip_slash s' with
      | EmptyString => if Ascii.eqb a "/" then EmptyString
                       else String a EmptyString
      | r => String a r
      end
  end.

(** What is left to check of a cleaned name: it is not empty, and at the
    root it starts as a node name does, with a letter, a digit or a dot. *)
Definition valid_scope_name (name stack : string) : bool :=
  match name with
  | EmptyString => false
  | String a _ =>
      match stack with
      | EmptyString =>
          is_upper a || is_lower a || is_digit a || Ascii.eqb a "."
      | _ => true
      end
  end.

(** [summary_op_util.summary_scope(name)]: the tag of the summary and the
    names in use once the scope is opened.  A name that ends with a slash
    re-enters that scope as it is; any other name is made unique under the
    enclosing scope. *)
Definition summary_scope (name stack : string) (m : names)
  : result (string * names) :=
  let name := clean_tag name in
  if valid_scope_name name stack
  then if ends_with_slash name
       then Ok (rstrip_slash name, m)
       else Ok (unique_name name stack m)
  else Raise InvalidName.

(** [tf.summary.scalar(name, tensor)]: a one-record summary under the tag
    of its scope, also added to the [SUMMARIES] collection. *)
Definition summary_scalar (name : string) (value : R) : tf summary :=
  fun g =>
    match summary_scope name (name_stack g) (names_in_use g) with
    | Ok (tag, m) =>
        let s := [(tag, value)] in
        Ok (s, {| LOSSES := LOSSES g;
                  REGULARIZATION_LOSSES := REGULARIZATION_LOSSES g;
                  SUMMARIES := SUMMARIES g ++ [s];
                  names_in_use := m;
                  name_stack := name_stack g |})
    | Raise e => Raise e
    end.

(** [tf.summary.merge(inputs)]: one summary holding the records of all. *)
Definition summary_merge (inputs : list summary) : tf summary :=
  ret (concat inputs).

(** ** The module [models/loss_utils.py] *)

(** [_loss_helper(loss, loss_name, add_summaries)]. *)
Definition _loss_helper (loss : R) (loss_name : string) (add_summaries : bool)
  : tf (R * R * option summary) :=
  (loss_total <- get_total_loss true ;;
   loss_reg <- get_regularization_loss ;;
   if add_summaries
   then
     s1 <- summary_scalar "loss_total"%string loss_total ;;
     s2 <- summary_scalar "loss_regularization_only"%string loss_reg ;;
     s3 <- summary_scalar loss_name loss ;;
     loss_summaries <- summary_merge [s1; s2; s3] ;;
     ret (loss_total, loss_reg, Some loss_summaries)
   else ret (loss_total, loss_reg, None))%tf.

(** [loss_nl(labels, preds, years, add_summaries)]: [preds] has shape
    [[batch_size, 2]], a DMSP and a VIIRS prediction per example. *)
Definition loss_nl (labels : list R) (preds : list (R * R)) (years : list Z)
  (add_summaries : bool) : tf (R * R * R * option summary) :=
  (preds <- lift (where_ (map (fun year => (year <? 2012)%Z) years)
                         (map fst preds) (map snd preds)) ;;
   loss_mse <- mean_squared_error (vector labels) (vector preds) ;;
   '(loss_total, loss_reg, loss_summaries) <-
      _loss_helper loss_mse "loss_mse"%string add_summaries ;;
   ret (loss_total, loss_mse, loss_reg, loss_summaries))%tf.

(** [loss_mse(labels, preds, add_summaries)]. *)
Definition loss_mse (labels preds : tensor) (add_summaries : bool)
  : tf (R * R * R * option summary) :=
  (loss_mse <- mean_squared_error labels preds ;;
   '(loss_total, loss_reg, loss_summaries) <-
      _loss_helper loss_mse "loss_mse"%string add_summaries ;;
   ret (loss_total, loss_mse, loss_reg, loss_summaries))%tf.

(** [loss_xent(labels, logits, add_summaries)]. *)
Definition loss_xent (labels : list Z) (logits : list (list R))
  (add_summaries : bool) : tf (R * R * R * option summary) :=
  (loss_xent <- sparse_softmax_cross_entropy labels logits ;;
   '(loss_total, loss_reg, loss_summaries) <-
      _loss_helper loss_xent "loss_cross_entropy"%string add_summaries ;;
   ret (loss_total, loss_xent, loss_reg, loss_summaries))%tf.

(** ** Calls of the public functions *)

(** A call of one of the three public functions, with its tensor inputs. *)
Inductive public_call : Type :=
| CallNl (labels : list R) (preds : list (R * R)) (years : list Z)
| CallMse (labels preds : tensor)
| CallXent (labels : list Z) (logits : list (list R)).

Definition invoke (c : public_call) (add_summaries : bool)
  : tf (R * R * R * option summary) :=
  match c with
  | CallNl labels preds years => loss_nl labels preds years add_summaries
  | CallMse labels preds => loss_mse labels preds add_summaries
  | CallXent labels logits => loss_xent labels logits add_summaries
  end.

(** The name under which a call passes its task loss to [_loss_helper]. *)
Definition task_name (c : public_call) : string :=
  match c with
  | CallNl _ _ _ => "loss_mse"%string
  | CallMse _ _ => "loss_mse"%string
  | CallXent _ _ => "loss_cross_entropy"%string
  end.

(** The numeric part of what a call returns: total, task and
    regularization loss, without the summary and the graph. *)
Definition numeric (r : result (R * R * R * option summary * graph))
  : result (R * R * R) :=
  match r with
  | Ok ((loss_total, loss_task, loss_reg, _), _) =>
      Ok (loss_total, loss_task, loss_reg)
  | Raise e => Raise e
  end.

(** A graph in which nothing has been built yet. *)
Definition fresh_graph : graph :=
  {| LOSSES := []; REGULARIZATION_LOSSES := []; SUMMARIES := [];
     names_in_use := []; name_stack := EmptyString |}.

(** The graph once the summaries [ss] have been created in it and the
    names in use have become [m]. *)
Definition with_summaries (g : graph) (ss : list summary) (m : names)
  : graph :=
  {| LOSSES := LOSSES g;
     REGULARIZATION_LOSSES := REGULARIZATION_LOSSES g;
     SUMMARIES := SUMMARIES g ++ ss;
     names_in_use := m;
     name_stack := name_stack g |}.

(** The graph once the loss [l] has been registered in it. *)
Definition with_loss (g : graph) (l : R) : graph :=
  {| LOSSES := LOSSES g ++ [l];
     REGULARIZATION_LOSSES := REGULARIZATION_LOSSES g;
     SUMMARIES := SUMMARIES g;
     names_in_use := names_in_use g;
     name_stack := name_stack g |}.

(** What [compute_weighted_loss] returns for the default weight 1.0. *)
Definition reduced (losses : list R) : R :=
  div_no_nan (add_n (map (fun l => l * 1) losses))
             (INR (num_present losses 1)).

(** The task loss a call computes before it reaches [_loss_helper]. *)
Definition task_loss (c : public_call) : result R :=
  match c with
  | CallNl labels preds years =>
      match where_ (map (fun year => (year <? 2012)%Z) years)
                   (map fst preds) (map snd preds) with
      | Ok sel =>
          if shape_eqb (shape (vector sel)) (shape (vector labels))
          then Ok (reduced (squared_difference sel labels))
          else Raise ShapeMismatch
      | Raise e => Raise e
      end
  | CallMse labels preds =>
      if shape_eqb (shape preds) (shape labels)
      then Ok (reduced (squared_difference (values preds) (values labels)))
      else Raise ShapeMismatch
  | CallXent labels logits =>
      match sparse_softmax_cross_entropy_with_logits labels logits with
      | Ok losses => Ok (reduced losses)
      | Raise e => Raise e
      end
  end.

(** The names [_loss_helper] takes for its three summaries, in order: the
    tag of each and the names in use after it. *)
Definition total_name (g : graph) : string * names :=
  unique_name "loss_total" (name_stack g) (names_in_use g).

Definition reg_name (g : graph) : string * names :=
  unique_name "loss_regularization_only" (name_stack g) (snd (total_name g)).

Definition loss_name_of (g : graph) (loss_name : string) : string * names :=
  unique_name loss_name (name_stack g) (snd (reg_name g)).

(** The three records [_loss_helper] builds when summaries are enabled. *)
Definition helper_records (g : graph) (loss : R) (loss_name : string)
  : list summary :=
  [ [(fst (total_name g), add_n (LOSSES g ++ REGULARIZATION_LOSSES g))];
    [(fst (reg_name g), add_n (REGULARIZATION_LOSSES g))];
    [(fst (loss_name_of g loss_name), loss)] ].

(** A name [tf.summary.scalar] takes as it is given: clean, valid at the
    root, and not the name of a scope to re-enter. *)
Definition plain_name (name : string) : Prop :=
  forall stack m,
    summary_scope name stack m = Ok (unique_name name stack m).

(** ** The specification's wording of the losses *)

(** Per example: the DMSP prediction before 2012, the VIIRS one from 2012. *)
Definition spec_select (year : Z) (pred : R * R) : R :=
  if (year <? 2012)%Z then fst pred else snd pred.

Fixpoint spec_selected (years : list Z) (preds : list (R * R)) : list R :=
  match years, preds with
  | year :: years', pred :: preds' =>
      spec_select year pred :: spec_selected years' preds'
  | _, _ => []
  end.

(** Sum of the squared errors of paired predictions and labels. *)
Fixpoint spec_squared_error (labels preds : list R) : R :=
  match labels, preds with
  | l :: labels', p :: preds' =>
      (p - l) ^ 2 + spec_squared_error labels' preds'
  | _, _ => 0
  end.

(** Mean squared error over the batch. *)
Definition spec_mse (labels preds : list R) : R :=
  spec_squared_error labels preds / INR (length labels).

(** Softmax of one row of logits. *)
Definition spec_softmax (row : list R) : list R :=
  map (fun z => exp z / add_n (map exp row)) row.

(** Cross-entropy of one example: minus the log of the probability the
    softmax gives to the labelled class. *)
Definition spec_cross_entropy (label : Z) (row : list R) : R :=
  - ln (nth (Z.to_nat label) (spec_softmax row) 0).

Fixpoint spec_cross_entropy_sum (labels : list Z) (logits : list (list R)) : R :=
  match labels, logits with
  | l :: ls, row :: rows =>
      spec_cross_entropy l row + spec_cross_entropy_sum ls rows
  | _, _ => 0
  end.

(** The number of examples whose weight is not zero. *)
Definition spec_nonzero_weights (weights : list R) : nat :=
  length (filter (fun w => if Req_dec_T w 0 then false else true) weights).

(** The weights of a call that passes none: 1.0 for every example. *)
Definition default_weights {A : Type} (examples : list A) : list R :=
  map (fun _ => 1) examples.

(** ** Laws of the primitives *)

Lemma add_n_app (xs ys : list R) : add_n (xs ++ ys) = add_n xs + add_n ys.
Proof.
  induction xs as [|x xs IH]; simpl.
  - lra.
  - rewrite IH. lra.
Qed.

Lemma get_regularization_loss_run (g : graph) :
  get_regularization_loss g = Ok (add_n (REGULARIZATION_LOSSES g), g).
Proof.
  unfold get_regularization_loss.
  destruct (REGULARIZATION_LOSSES g); reflexivity.
Qed.

Lemma get_total_loss_run (g : graph) :
  LOSSES g ++ REGULARIZATION_LOSSES g <> [] ->
  get_total_loss true g =
  Ok (add_n (LOSSES g ++ REGULARIZATION_LOSSES g), g).
Proof.
  intros Hne. unfold get_total_loss.
  destruct (LOSSES g ++ REGULARIZATION_LOSSES g); [contradiction | reflexivity].
Qed.

Lemma get_total_loss_empty (g : graph) :
  LOSSES g ++ REGULARIZATION_LOSSES g = [] ->
  get_total_loss true g = Raise EmptyAddN.
Proof.
  intros He. unfold get_total_loss. rewrite He. reflexivity.
Qed.

Lemma compute_weighted_loss_run (losses : list R) (g : graph) :
  compute_weighted_loss losses 1 g =
  Ok (reduced losses, with_loss g (reduced losses)).
Proof. reflexivity. Qed.

(** The names the module passes to [tf.summary.scalar] are plain. *)
Lemma plain_loss_total : plain_name "loss_total".
Proof. intros [|a stack] m; reflexivity. Qed.

Lemma plain_loss_regularization_only : plain_name "loss_regularization_only".
Proof. intros [|a stack] m; reflexivity. Qed.

Lemma plain_loss_mse : plain_name "loss_mse".
Proof. intros [|a stack] m; reflexivity. Qed.

Lemma plain_loss_cross_entropy : plain_name "loss_cross_entropy".
Proof. intros [|a stack] m; reflexivity. Qed.

Lemma plain_task_name (c : public_call) : plain_name (task_name c).
Proof.
  destruct c; simpl;
    [apply plain_loss_mse | apply plain_loss_mse
     | apply plain_loss_cross_entropy].
Qed.

(** [tf.summary.scalar] on a plain name. *)
Lemma summary_scalar_plain (name : string) (value : R) (g : graph) :
  plain_name name ->
  summary_scalar name value g =
  let u := unique_name name (name_stack g) (names_in_use g) in
  Ok ([(fst u, value)], with_summaries g [[(fst u, value)]] (snd u)).
Proof.
  intros Hplain. unfold summary_scalar. rewrite Hplain.
  destruct (unique_name _ _ _) as [tag m]. reflexivity.
Qed.

(** [tf.summary.scalar] fails only on a name that is not valid. *)
Lemma summary_scalar_raise (name : string) (value : R) (g : graph)
  (e : tf_error) :
  summary_scalar name value g = Raise e -> e = InvalidName.
Proof.
  unfold summary_scalar, summary_scope.
  destruct (valid_scope_name _ _); [| congruence].
  destruct (ends_with_slash _); [discriminate |].
  destruct (unique_name _ _ _); discriminate.
Qed.

(** [_loss_helper] without summaries, on a graph that holds at least one
    loss. *)
Lemma _loss_helper_quiet (loss : R) (loss_name : string) (g : graph) :
  LOSSES g ++ REGULARIZATION_LOSSES g <> [] ->
  _loss_helper loss loss_name false g =
  Ok ((add_n (LOSSES g ++ REGULARIZATION_LOSSES g),
       add_n (REGULARIZATION_LOSSES g), None), g).
Proof.
  intros Hne. unfold _loss_helper, bind.
  now rewrite (get_total_loss_run g Hne), get_regularization_loss_run.
Qed.

(** [_loss_helper] under a plain name, on a graph that holds at least one
    loss. *)
Lemma _loss_helper_run (loss : R) (loss_name : string) (s : bool) (g : graph) :
  plain_name loss_name ->
  LOSSES g ++ REGULARIZATION_LOSSES g <> [] ->
  _loss_helper loss loss_name s g =
  Ok ((add_n (LOSSES g ++ REGULARIZATION_LOSSES g),
       add_n (REGULARIZATION_LOSSES g),
       if s then Some (concat (helper_records g loss loss_name)) else None),
      if s
      then with_summaries g (helper_records g loss loss_name)
             (snd (loss_name_of g loss_name))
      else g).
Proof.
  intros Hplain Hne.
  destruct s; [| now apply _loss_helper_quiet].
  unfold _loss_helper, bind.
  rewrite (get_total_loss_run g Hne), get_regularization_loss_run.
  rewrite (summary_scalar_plain _ _ _ plain_loss_total).
  cbv beta iota zeta.
  rewrite (summary_scalar_plain _ _ _ plain_loss_regularization_only).
  cbv beta iota zeta.
  rewrite (summary_scalar_plain _ _ _ Hplain).
  cbv beta iota zeta.
  unfold summary_merge, ret, with_summaries, helper_records,
    loss_name_of, reg_name, total_name.
  simpl. repeat rewrite <- app_assoc. reflexivity.
Qed.

Lemma with_loss_nonempty (g : graph) (l : R) :
  LOSSES (with_loss g l) ++ REGULARIZATION_LOSSES (with_loss g l) <> [].
Proof.
  simpl. destruct (LOSSES g); discriminate.
Qed.

(** Every public call computes its task loss, registers it, and hands it
    to [_loss_helper]; it fails exactly when the task loss does. *)
Lemma invoke_run (c : public_call) (s : bool) (g : graph) :
  invoke c s g =
  match task_loss c with
  | Ok t =>
      let g1 := with_loss g t in
      Ok ((add_n (LOSSES g1 ++ REGULARIZATION_LOSSES g1), t,
           add_n (REGULARIZATION_LOSSES g1),
           if s then Some (concat (helper_records g1 t (task_name c)))
           else None),
          if s
          then with_summaries g1 (helper_records g1 t (task_name c))
                 (snd (loss_name_of g1 (task_name c)))
          else g1)
  | Raise e => Raise e
  end.
Proof.
  destruct c as [labels preds years | labels preds | labels logits]; simpl.
  - unfold loss_nl, bind, lift.
    destruct (where_ _ _ _) as [sel | e]; [| reflexivity].
    unfold mean_squared_error.
    destruct (shape_eqb _ _); [| reflexivity].
    rewrite compute_weighted_loss_run.
    rewrite (_loss_helper_run _ _ _ _ plain_loss_mse (with_loss_nonempty g _)).
    reflexivity.
  - unfold loss_mse, bind, mean_squared_error.
    destruct (shape_eqb _ _); [| reflexivity].
    rewrite compute_weighted_loss_run.
    rewrite (_loss_helper_run _ _ _ _ plain_loss_mse (with_loss_nonempty g _)).
    reflexivity.
  - unfold loss_xent, bind, sparse_softmax_cross_entropy, bind, lift.
    destruct (sparse_softmax_cross_entropy_with_logits _ _) as [ls | e];
      [| reflexivity].
    rewrite compute_weighted_loss_run.
    rewrite (_loss_helper_run _ _ _ _ plain_loss_cross_entropy
               (with_loss_nonempty g _)).
    reflexivity.
Qed.

(** ** Reductions *)

Lemma num_present_one (losses : list R) :
  num_present losses 1 = length losses.
Proof.
  unfold num_present.
  destruct (Req_dec_T 1 0) as [H | _]; [lra |].
  induction losses as [|l ls IH]; simpl; [reflexivity | now rewrite IH].
Qed.

Lemma map_mult_one (losses : list R) : map (fun l => l * 1) losses = losses.
Proof.
  induction losses as [|l ls IH]; simpl; [reflexivity |].
  rewrite IH. f_equal. lra.
Qed.

(** With the default weight the reduction is the plain mean; for an empty
    list both sides are 0. *)
Lemma reduced_mean (losses : list R) :
  reduced losses = add_n losses / INR (length losses).
Proof.
  unfold reduced, div_no_nan.
  rewrite num_present_one, map_mult_one.
  destruct (Req_dec_T (INR (length losses)) 0) as [H0 | _]; [| reflexivity].
  destruct losses as [|l ls].
  - simpl. unfold Rdiv. lra.
  - exfalso. revert H0. apply not_0_INR. discriminate.
Qed.

Lemma add_n_squared_difference (labels preds : list R) :
  add_n (squared_difference preds labels) = spec_squared_error labels preds.
Proof.
  revert labels.
  induction preds as [|p ps IH]; intros [|l ls]; simpl; try reflexivity.
  rewrite IH. lra.
Qed.

Lemma squared_difference_length (labels preds : list R) :
  length preds = length labels ->
  length (squared_difference preds labels) = length labels.
Proof.
  revert labels.
  induction preds as [|p ps IH]; intros [|l ls] Hlen; simpl in *;
    try discriminate; try reflexivity.
  now rewrite IH by lia.
Qed.

(** The mean-squared-error reduction of the code is the batch mean of the
    squared errors. *)
Lemma reduced_squared_difference (labels preds : list R) :
  length preds = length labels ->
  reduced (squared_difference preds labels) = spec_mse labels preds.
Proof.
  intros Hlen. unfold spec_mse.
  now rewrite reduced_mean, add_n_squared_difference,
    squared_difference_length.
Qed.

Lemma shape_eqb_refl (s : list nat) : shape_eqb s s = true.
Proof.
  unfold shape_eqb. destruct (list_eq_dec Nat.eq_dec s s); congruence.
Qed.

Lemma shape_eqb_vector (xs ys : list R) :
  length xs = length ys ->
  shape_eqb (shape (vector xs)) (shape (vector ys)) = true.
Proof.
  intros Hlen. simpl. rewrite Hlen. apply shape_eqb_refl.
Qed.

(** ** Selection by year *)

Lemma where_spec_selected (years : list Z) (preds : list (R * R)) :
  length years = length preds ->
  where_ (map (fun year => (year <? 2012)%Z) years)
         (map fst preds) (map snd preds)
  = Ok (spec_selected years preds).
Proof.
  revert preds.
  induction years as [|y ys IH]; intros [|p ps] Hlen; simpl in *;
    try discriminate; try reflexivity.
  rewrite IH by lia. reflexivity.
Qed.

Lemma spec_selected_length (years : list Z) (preds : list (R * R)) :
  length years = length preds ->
  length (spec_selected years preds) = length preds.
Proof.
  revert preds.
  induction years as [|y ys IH]; intros [|p ps] Hlen; simpl in *;
    try discriminate; try reflexivity.
  now rewrite IH by lia.
Qed.

Lemma spec_selected_nth (years : list Z) (preds : list (R * R))
  (i : nat) (year : Z) (pred : R * R) :
  nth_error years i = Some year ->
  nth_error preds i = Some pred ->
  nth_error (spec_selected years preds) i = Some (spec_select year pred).
Proof.
  revert preds i.
  induction years as [|y ys IH]; intros [|p ps] [|i] Hy Hp; simpl in *;
    try discriminate.
  - congruence.
  - now apply IH.
Qed.

Lemma spec_selected_before (years : list Z) (preds : list (R * R)) :
  length years = length preds ->
  Forall (fun year => (year < 2012)%Z) years ->
  spec_selected years preds = map fst preds.
Proof.
  revert preds.
  induction years as [|y ys IH]; intros [|p ps] Hlen Hall; simpl in *;
    try discriminate; try reflexivity.
  inversion Hall as [|? ? Hy Hys]; subst.
  unfold spec_select.
  destruct (Z.ltb_spec y 2012); [| lia].
  now rewrite IH by (assumption || lia).
Qed.

Lemma spec_selected_from (years : list Z) (preds : list (R * R)) :
  length years = length preds ->
  Forall (fun year => (2012 <= year)%Z) years ->
  spec_selected years preds = map snd preds.
Proof.
  revert preds.
  induction years as [|y ys IH]; intros [|p ps] Hlen Hall; simpl in *;
    try discriminate; try reflexivity.
  inversion Hall as [|? ? Hy Hys]; subst.
  unfold spec_select.
  destruct (Z.ltb_spec y 2012); [lia |].
  now rewrite IH by (assumption || lia).
Qed.

(** After the selection, [loss_nl] is [loss_mse] on the selected column. *)
Lemma loss_nl_after_where (labels : list R) (preds : list (R * R))
  (years : list Z) (sel : list R) (s : bool) (g : graph) :
  where_ (map (fun year => (year <? 2012)%Z) years)
         (map fst preds) (map snd preds) = Ok sel ->
  loss_nl labels preds years s g = loss_mse (vector labels) (vector sel) s g.
Proof.
  intros Hw. unfold loss_nl, loss_mse, bind at 1, lift.
  rewrite Hw. reflexivity.
Qed.

(** ** What every public call returns *)

(** The total returned by a successful call is the sum of the losses that
    were registered in the graph before the call, of the task loss of the
    call and of the regularization loss. *)
Lemma invoke_ok (c : public_call) (s : bool) (g : graph) (t : R) :
  task_loss c = Ok t ->
  exists summ g',
    invoke c s g =
    Ok ((add_n (LOSSES g) + t + add_n (REGULARIZATION_LOSSES g), t,
         add_n (REGULARIZATION_LOSSES g), summ), g').
Proof.
  intros Ht. rewrite invoke_run, Ht. cbv zeta. simpl LOSSES.
  simpl REGULARIZATION_LOSSES.
  replace (add_n ((LOSSES g ++ [t]) ++ REGULARIZATION_LOSSES g))
    with (add_n (LOSSES g) + t + add_n (REGULARIZATION_LOSSES g)).
  - eexists. eexists. reflexivity.
  - rewrite !add_n_app. simpl. lra.
Qed.

Lemma invoke_inv (c : public_call) (s : bool) (g g' : graph)
  (total task reg : R) (summ : option summary) :
  invoke c s g = Ok ((total, task, reg, summ), g') ->
  task_loss c = Ok task
  /\ total = add_n (LOSSES g) + task + add_n (REGULARIZATION_LOSSES g)
  /\ reg = add_n (REGULARIZATION_LOSSES g).
Proof.
  intros Hrun.
  destruct (task_loss c) as [t | e] eqn:Ht.
  - destruct (invoke_ok c s g t Ht) as (summ0 & g0 & Hok).
    rewrite Hok in Hrun. inversion Hrun; subst. auto.
  - rewrite invoke_run, Ht in Hrun. discriminate.
Qed.

(** X2. In a graph that holds no earlier loss the total a successful
    public call returns is its task loss plus the regularization loss. *)
Lemma invoke_total_no_earlier_loss (c : public_call) (s : bool)
  (g g' : graph) (total task reg : R) (summ : option summary) :
  LOSSES g = [] ->
  invoke c s g = Ok ((total, task, reg, summ), g') ->
  total = task + reg.
Proof.
  intros Hl Hrun.
  destruct (invoke_inv _ _ _ _ _ _ _ _ Hrun) as (_ & Htot & Hreg).
  rewrite Htot, Hreg, Hl. simpl. lra.
Qed.

(** Without regularization losses the regularization value is 0 and the
    call does not fail for that reason. *)
Lemma invoke_no_regularization (c : public_call) (s : bool)
  (g g' : graph) (total task reg : R) (summ : option summary) :
  REGULARIZATION_LOSSES g = [] ->
  invoke c s g = Ok ((total, task, reg, summ), g') ->
  reg = 0.
Proof.
  intros Hr Hrun.
  destruct (invoke_inv _ _ _ _ _ _ _ _ Hrun) as (_ & _ & Hreg).
  rewrite Hreg, Hr. reflexivity.
Qed.

(** ** Nightlights selection *)

(** C3. In [loss_nl] the column is chosen example by example: the
    selected prediction of an example is its DMSP (first) prediction when
    its year is strictly below 2012 and its VIIRS (second) prediction when
    its year is 2012 or later, and the task loss returned is the mean
    squared error between the selected predictions and the labels over the
    batch. *)
Theorem loss_nl_selects_per_example
  (labels : list R) (preds : list (R * R)) (years : list Z)
  (s : bool) (g : graph) :
  length preds = length labels ->
  length years = length labels ->
  exists sel total reg summ g',
    where_ (map (fun year => (year <? 2012)%Z) years)
           (map fst preds) (map snd preds) = Ok sel
    /\ (forall i year pred,
          nth_error years i = Some year ->
          nth_error preds i = Some pred ->
          ((year < 2012)%Z -> nth_error sel i = Some (fst pred)) /\
          ((2012 <= year)%Z -> nth_error sel i = Some (snd pred)))
    /\ loss_nl labels preds years s g =
       Ok ((total, spec_mse labels sel, reg, summ), g').
Proof.
  intros Hp Hy.
  assert (Hyp : length years = length preds) by congruence.
  assert (Ht : task_loss (CallNl labels preds years)
               = Ok (spec_mse labels (spec_selected years preds))).
  { unfold task_loss. rewrite (where_spec_selected _ _ Hyp).
    assert (Hs : length (spec_selected years preds) = length labels)
      by (rewrite spec_selected_length; congruence).
    rewrite (shape_eqb_vector _ _ Hs).
    now rewrite reduced_squared_difference. }
  destruct (invoke_ok _ s g _ Ht) as (summ & g' & Hrun).
  exists (spec_selected years preds). do 3 eexists. exists g'.
  split; [now apply where_spec_selected |].
  split; [| exact Hrun].
  intros i year pred Hi Hj.
  rewrite (spec_selected_nth _ _ _ _ _ Hi Hj). unfold spec_select.
  destruct (Z.ltb_spec year 2012); split; intros; (reflexivity || lia).
Qed.

Lemma loss_nl_selects_per_example_witness :
  (length [(1, 5); (7, 2)] = length [1; 2]
   /\ length [2011%Z; 2012%Z] = length [1; 2])
  /\ exists sel total reg summ g',
       where_ (map (fun year => (year <? 2012)%Z) [2011%Z; 2012%Z])
              (map fst [(1, 5); (7, 2)]) (map snd [(1, 5); (7, 2)]) = Ok sel
       /\ (forall i year pred,
             nth_error [2011%Z; 2012%Z] i = Some year ->
             nth_error [(1, 5); (7, 2)] i = Some pred ->
             ((year < 2012)%Z -> nth_error sel i = Some (fst pred)) /\
             ((2012 <= year)%Z -> nth_error sel i = Some (snd pred)))
       /\ loss_nl [1; 2] [(1, 5); (7, 2)] [2011%Z; 2012%Z] true fresh_graph =
          Ok ((total, spec_mse [1; 2] sel, reg, summ), g').
Proof.
  split; [split; reflexivity |].
  apply (loss_nl_selects_per_example
           [1; 2] [(1, 5); (7, 2)] [2011%Z; 2012%Z] true fresh_graph);
    reflexivity.
Defined.

(** C4. On a batch whose years are all strictly below 2012, [loss_nl]
    returns what [loss_mse] returns on the labels and the first prediction
    column; on a batch whose years are all 2012 or later, what [loss_mse]
    returns on the labels and the second prediction column. *)
Theorem loss_nl_single_sensor
  (labels : list R) (preds : list (R * R)) (years : list Z)
  (s : bool) (g : graph) :
  length years = length preds ->
  (Forall (fun year => (year < 2012)%Z) years ->
   loss_nl labels preds years s g =
   loss_mse (vector labels) (vector (map fst preds)) s g)
  /\
  (Forall (fun year => (2012 <= year)%Z) years ->
   loss_nl labels preds years s g =
   loss_mse (vector labels) (vector (map snd preds)) s g).
Proof.
  intros Hlen. split; intros Hall; apply loss_nl_after_where;
    rewrite (where_spec_selected _ _ Hlen); f_equal.
  - now apply spec_selected_before.
  - now apply spec_selected_from.
Qed.

Lemma loss_nl_single_sensor_witness :
  loss_nl [1; 2] [(1, 5); (7, 2)] [2010%Z; 2011%Z] true fresh_graph =
  loss_mse (vector [1; 2]) (vector (map fst [(1, 5); (7, 2)])) true fresh_graph
  /\
  loss_nl [1; 2] [(1, 5); (7, 2)] [2012%Z; 2015%Z] true fresh_graph =
  loss_mse (vector [1; 2]) (vector (map snd [(1, 5); (7, 2)])) true fresh_graph.
Proof.
  split.
  - apply (loss_nl_single_sensor
             [1; 2] [(1, 5); (7, 2)] [2010%Z; 2011%Z] true fresh_graph).
    + reflexivity.
    + repeat constructor.
  - apply (loss_nl_single_sensor
             [1; 2] [(1, 5); (7, 2)] [2012%Z; 2015%Z] true fresh_graph).
    + reflexivity.
    + repeat constructor; discriminate.
Defined.

(** ** The mean-squared-error scenario *)

(** For labels [1.0, 2.0, 3.0] and predictions [1.0, 2.0, 4.0], in a
    graph that holds no other loss and whose regularization losses sum to
    zero, [loss_mse] returns the task loss 1/3 and the total loss 1/3. *)
Lemma loss_mse_scenario (s : bool) (g : graph) :
  LOSSES g = [] ->
  add_n (REGULARIZATION_LOSSES g) = 0 ->
  exists summ g',
    loss_mse (vector [1; 2; 3]) (vector [1; 2; 4]) s g =
    Ok ((1 / 3, 1 / 3, 0, summ), g').
Proof.
  intros Hl Hr.
  assert (Ht : task_loss (CallMse (vector [1; 2; 3]) (vector [1; 2; 4]))
               = Ok (1 / 3)).
  { unfold task_loss. rewrite shape_eqb_refl. f_equal.
    rewrite reduced_mean. simpl. field. }
  destruct (invoke_ok _ s g _ Ht) as (summ & g' & Hrun).
  exists summ, g'. simpl in Hrun. rewrite Hrun, Hl, Hr. simpl.
  replace (0 + 1 / 3 + 0) with (1 / 3) by lra. reflexivity.
Qed.

Lemma loss_mse_scenario_witness :
  (LOSSES fresh_graph = []
   /\ add_n (REGULARIZATION_LOSSES fresh_graph) = 0)
  /\ exists summ g',
       loss_mse (vector [1; 2; 3]) (vector [1; 2; 4]) true fresh_graph =
       Ok ((1 / 3, 1 / 3, 0, summ), g').
Proof.
  split; [split; reflexivity |].
  apply (loss_mse_scenario true fresh_graph); reflexivity.
Defined.

(** ** Softmax cross-entropy *)

Lemma add_n_exp_nonneg (row : list R) : 0 <= add_n (map exp row).
Proof.
  induction row as [|z zs IH]; simpl; [lra |].
  pose proof (exp_pos z). lra.
Qed.

Lemma add_n_exp_pos (row : list R) : row <> [] -> 0 < add_n (map exp row).
Proof.
  destruct row as [|z zs]; [congruence | intros _; simpl].
  pose proof (exp_pos z). pose proof (add_n_exp_nonneg zs). lra.
Qed.

(** Shifting every logit by [m] scales the sum of exponentials. *)
Lemma add_n_exp_shift (row : list R) (m : R) :
  add_n (map exp (map (fun z => z - m) row)) = add_n (map exp row) * exp (- m).
Proof.
  induction row as [|z zs IH]; simpl; [lra |].
  rewrite IH. unfold Rminus. rewrite exp_plus. lra.
Qed.

Lemma nth_map_inside {A : Type} (f : A -> R) (l : list A) (i : nat) (d : A) :
  (i < length l)%nat -> nth i (map f l) 0 = f (nth i l d).
Proof.
  revert i. induction l as [|a l IH]; intros [|i] Hi; simpl in *;
    try lia; [reflexivity |].
  apply IH. lia.
Qed.

(** One row: the shifted log-sum-exp form of the kernel is minus the log
    of the softmax probability of the labelled class. *)
Lemma sparse_xent_row_spec (label : Z) (row : list R) :
  (0 <= label < Z.of_nat (length row))%Z ->
  sparse_xent_row label row = Ok (spec_cross_entropy label row).
Proof.
  intros Hl. unfold sparse_xent_row, spec_cross_entropy, spec_softmax.
  destruct (Z.leb_spec 0 label); [| lia].
  destruct (Z.ltb_spec label (Z.of_nat (length row))); [| lia].
  simpl andb. cbv iota. f_equal.
  assert (Hi : (Z.to_nat label < length row)%nat) by lia.
  assert (Hne : row <> []) by (destruct row; simpl in *; [lia | discriminate]).
  pose proof (add_n_exp_pos row Hne) as Hpos.
  rewrite add_n_exp_shift.
  rewrite (nth_map_inside (fun z => z - reduce_max row) row _ 0 Hi).
  rewrite (nth_map_inside (fun z => exp z / add_n (map exp row)) row _ 0 Hi).
  rewrite ln_mult by (assumption || apply exp_pos).
  unfold Rdiv.
  rewrite ln_mult by (apply exp_pos || now apply Rinv_0_lt_compat).
  rewrite ln_Rinv by assumption.
  rewrite !ln_exp. lra.
Qed.

(** On batches of one length the check of the lengths passes. *)
Lemma sparse_softmax_cross_entropy_with_logits_rows
  (labels : list Z) (logits : list (list R)) :
  length logits = length labels ->
  sparse_softmax_cross_entropy_with_logits labels logits
  = sparse_xent_rows labels logits.
Proof.
  intros Hlen. unfold sparse_softmax_cross_entropy_with_logits.
  now rewrite Hlen, Nat.eqb_refl.
Qed.

Lemma sparse_softmax_cross_entropy_with_logits_spec
  (num_classes : nat) (labels : list Z) (logits : list (list R)) :
  length logits = length labels ->
  Forall (fun row => length row = num_classes) logits ->
  Forall (fun label => (0 <= label < Z.of_nat num_classes)%Z) labels ->
  exists losses,
    sparse_softmax_cross_entropy_with_logits labels logits = Ok losses
    /\ length losses = length labels
    /\ add_n losses = spec_cross_entropy_sum labels logits.
Proof.
  intros Hlen0.
  rewrite (sparse_softmax_cross_entropy_with_logits_rows _ _ Hlen0).
  revert Hlen0. revert logits.
  induction labels as [|l ls IH]; intros [|row rows] Hlen Hrows Hlabels;
    simpl in *; try discriminate.
  - exists []. auto.
  - inversion Hrows as [|? ? Hrow Hrows']; subst.
    inversion Hlabels as [|? ? Hl Hls]; subst.
    rewrite sparse_xent_row_spec by assumption.
    destruct (IH rows) as (losses & Hrun & Hn & Hsum);
      [lia | assumption | assumption |].
    rewrite Hrun. exists (spec_cross_entropy l row :: losses).
    simpl. rewrite Hn, Hsum. auto.
Qed.

Lemma spec_nonzero_weights_default {A : Type} (examples : list A) :
  spec_nonzero_weights (default_weights examples) = length examples.
Proof.
  unfold spec_nonzero_weights, default_weights.
  induction examples as [|a l IH]; simpl; [reflexivity |].
  destruct (Req_dec_T 1 0) as [H | _]; [lra |].
  simpl. now rewrite IH.
Qed.

(** C5. For class labels in [0, num_classes) and one row of [num_classes]
    logits per example, the task loss [loss_xent] returns is the softmax
    cross-entropy summed over the examples and divided by the number of
    examples whose weight is not zero. *)
Theorem loss_xent_mean_cross_entropy
  (num_classes : nat) (labels : list Z) (logits : list (list R))
  (s : bool) (g : graph) :
  length logits = length labels ->
  Forall (fun row => length row = num_classes) logits ->
  Forall (fun label => (0 <= label < Z.of_nat num_classes)%Z) labels ->
  exists total reg summ g',
    loss_xent labels logits s g =
    Ok ((total,
         spec_cross_entropy_sum labels logits /
           INR (spec_nonzero_weights (default_weights labels)),
         reg, summ), g').
Proof.
  intros Hlen Hrows Hlabels.
  destruct (sparse_softmax_cross_entropy_with_logits_spec
              num_classes labels logits Hlen Hrows Hlabels)
    as (losses & Hrun & Hn & Hsum).
  assert (Ht : task_loss (CallXent labels logits)
               = Ok (spec_cross_entropy_sum labels logits /
                       INR (spec_nonzero_weights (default_weights labels)))).
  { unfold task_loss. rewrite Hrun, reduced_mean.
    now rewrite spec_nonzero_weights_default, Hn, Hsum. }
  destruct (invoke_ok _ s g _ Ht) as (summ & g' & Hok).
  do 2 eexists. exists summ, g'. exact Hok.
Qed.

Lemma loss_xent_mean_cross_entropy_witness :
  (length [[2; 1 / 2]; [1 / 5; 3 / 2]] = length [0%Z; 1%Z]
   /\ Forall (fun row => length row = 2%nat) [[2; 1 / 2]; [1 / 5; 3 / 2]]
   /\ Forall (fun label => (0 <= label < Z.of_nat 2)%Z) [0%Z; 1%Z])
  /\ exists total reg summ g',
       loss_xent [0%Z; 1%Z] [[2; 1 / 2]; [1 / 5; 3 / 2]] true fresh_graph =
       Ok ((total,
            spec_cross_entropy_sum [0%Z; 1%Z] [[2; 1 / 2]; [1 / 5; 3 / 2]] /
              INR (spec_nonzero_weights (default_weights [0%Z; 1%Z])),
            reg, summ), g').
Proof.
  split.
  - split; [reflexivity |].
    split; repeat constructor; discriminate.
  - apply (loss_xent_mean_cross_entropy
             2 [0%Z; 1%Z] [[2; 1 / 2]; [1 / 5; 3 / 2]] true fresh_graph).
    + reflexivity.
    + repeat constructor.
    + repeat constructor; discriminate.
Defined.

(** ** Summaries *)

(** C7. Whatever public function is called: with the summary flag off the
    summary returned is [None]; with the flag on it is a bundle of exactly
    three named scalar records. *)
Theorem summary_presence
  (c : public_call) (s : bool) (g g' : graph)
  (res : R * R * R * option summary) :
  invoke c s g = Ok (res, g') ->
  (s = false -> snd res = None)
  /\ (s = true ->
      exists bundle, snd res = Some bundle /\ length bundle = 3%nat).
Proof.
  intros Hrun. rewrite invoke_run in Hrun.
  destruct (task_loss c) as [t | e]; [| discriminate].
  cbv zeta in Hrun. inversion Hrun; subst; clear Hrun.
  split; intros ->; simpl.
  - reflexivity.
  - eexists. split; reflexivity.
Qed.

Lemma summary_presence_witness :
  exists res g',
    invoke (CallMse (vector [1]) (vector [1])) true fresh_graph = Ok (res, g')
    /\ (true = false -> snd res = None)
    /\ (true = true ->
        exists bundle, snd res = Some bundle /\ length bundle = 3%nat).
Proof.
  do 2 eexists. split.
  - rewrite invoke_run. unfold task_loss. rewrite shape_eqb_refl.
    cbv zeta. reflexivity.
  - eapply (summary_presence (CallMse (vector [1]) (vector [1]))
              true fresh_graph).
    rewrite invoke_run. unfold task_loss. rewrite shape_eqb_refl.
    cbv zeta. reflexivity.
Defined.

(** *** Names that are not in use *)

Lemma count_mark_other (key k : string) (n : nat) (m : names) :
  key <> k -> count key (mark k n m) = count key m.
Proof.
  intros Hne. simpl.
  destruct (String.eqb_spec key k); [contradiction | reflexivity].
Qed.

(** A name that was never taken is taken as it is. *)
Lemma unique_name_unused (name stack : string) (m : names) :
  count (lower (scoped stack name)) m = 0%nat ->
  unique_name name stack m
  = (scoped stack name, mark (lower (scoped stack name)) 1 m).
Proof.
  intros H0. unfold unique_name. cbv zeta. now rewrite H0.
Qed.

Lemma lower_app (a b : string) :
  lower (a ++ b) = (lower a ++ lower b)%string.
Proof.
  induction a as [|x a IH]; simpl; [reflexivity | now rewrite IH].
Qed.

Lemma append_inj_l (s a b : string) :
  (s ++ a = s ++ b)%string -> a = b.
Proof.
  induction s as [|x s IH]; simpl; intros H; [exact H |].
  inversion H. now apply IH.
Qed.

(** Two names under one scope have the same key only if they have the
    same key on their own. *)
Lemma lower_scoped_inj (stack a b : string) :
  lower (scoped stack a) = lower (scoped stack b) -> lower a = lower b.
Proof.
  destruct stack as [|x stack]; [intros H; exact H |].
  unfold scoped. rewrite !lower_app. intros H.
  apply append_inj_l in H. simpl in H. now inversion H.
Qed.

(** *** The loop of [unique_name] ends on a free name *)

Lemma decimal_inj (a b : nat) : decimal a = decimal b -> a = b.
Proof.
  unfold decimal. intros H.
  apply (f_equal NilEmpty.uint_of_string) in H.
  rewrite !NilEmpty.usu in H. inversion H as [H'].
  apply (f_equal Nat.of_uint) in H'.
  now rewrite !Unsigned.of_to in H'.
Qed.

Lemma suffixed_inj (key : string) (a b : nat) :
  suffixed key a = suffixed key b -> a = b.
Proof.
  unfold suffixed. intros H. apply append_inj_l in H.
  simpl in H. inversion H as [H']. now apply decimal_inj.
Qed.

Lemma in_use_In (key : string) (m : names) :
  in_use key m = true -> In key (map fst m).
Proof.
  unfold in_use. induction m as [|[k n] m IH]; simpl; [discriminate |].
  destruct (String.eqb_spec key k) as [-> | Hne]; [now left |].
  intros H. right. now apply IH.
Qed.

Lemma first_free_spec (turns : nat) (key : string) (i : nat) (m : names) :
  in_use (suffixed key (first_free turns key i m)) m = false
  \/ (forall k, (i <= k < i + turns)%nat ->
                in_use (suffixed key k) m = true).
Proof.
  revert i. induction turns as [|turns IH]; intros i; simpl.
  - right. intros k Hk. lia.
  - destruct (in_use (suffixed key i) m) eqn:Hi; [| now left].
    destruct (IH (S i)) as [Hfree | Hall]; [now left | right].
    intros k Hk. destruct (Nat.eq_dec k i) as [-> | Hne]; [exact Hi |].
    apply Hall. lia.
Qed.

(** With one turn more than there are names, the loop stops on a name
    that is not in use. *)
Lemma first_free_is_free (key : string) (i : nat) (m : names) :
  in_use (suffixed key (first_free (S (length m)) key i m)) m = false.
Proof.
  destruct (first_free_spec (S (length m)) key i m) as [Hfree | Hall];
    [exact Hfree | exfalso].
  assert (Hnd : NoDup (map (suffixed key) (seq i (S (length m))))).
  { apply NoDup_map_NoDup_ForallPairs; [| apply seq_NoDup].
    intros a b _ _ Hab. now apply (suffixed_inj key). }
  assert (Hincl : incl (map (suffixed key) (seq i (S (length m))))
                       (map fst m)).
  { intros x Hx. apply in_map_iff in Hx. destruct Hx as (k & <- & Hk).
    apply in_seq in Hk. apply in_use_In. apply Hall. lia. }
  pose proof (NoDup_incl_length Hnd Hincl) as Hle.
  rewrite !length_map, length_seq in Hle. lia.
Qed.

(** The tags of the three summaries when none of the names is in use. *)
Lemma helper_tags_unused (g : graph) (loss_name : string) :
  lower loss_name <> lower "loss_total" ->
  lower loss_name <> lower "loss_regularization_only" ->
  count (lower (scoped (name_stack g) "loss_total")) (names_in_use g)
    = 0%nat ->
  count (lower (scoped (name_stack g) "loss_regularization_only"))
        (names_in_use g) = 0%nat ->
  count (lower (scoped (name_stack g) loss_name)) (names_in_use g)
    = 0%nat ->
  fst (total_name g) = scoped (name_stack g) "loss_total"
  /\ fst (reg_name g) = scoped (name_stack g) "loss_regularization_only"
  /\ fst (loss_name_of g loss_name) = scoped (name_stack g) loss_name.
Proof.
  intros Hn1 Hn2 H1 H2 H3.
  assert (Ht : total_name g
               = (scoped (name_stack g) "loss_total",
                  mark (lower (scoped (name_stack g) "loss_total")) 1
                       (names_in_use g)))
    by (unfold total_name; now rewrite unique_name_unused).
  assert (Hr : reg_name g
               = (scoped (name_stack g) "loss_regularization_only",
                  mark (lower (scoped (name_stack g)
                                      "loss_regularization_only")) 1
                       (snd (total_name g)))).
  { unfold reg_name. rewrite unique_name_unused; [reflexivity |].
    rewrite Ht. simpl snd. rewrite count_mark_other; [exact H2 |].
    intros He. apply lower_scoped_inj in He. discriminate He. }
  split; [now rewrite Ht |]. split; [now rewrite Hr |].
  unfold loss_name_of. rewrite unique_name_unused; [reflexivity |].
  rewrite Hr. simpl snd. rewrite count_mark_other.
  - rewrite Ht. simpl snd. rewrite count_mark_other; [exact H3 |].
    intros He. apply lower_scoped_inj in He. contradiction.
  - intros He. apply lower_scoped_inj in He. contradiction.
Qed.

(** C8. With summaries enabled the bundle holds three records, in this
    order: the total loss, the regularization loss and the task loss,
    asked under the names [loss_total], [loss_regularization_only] and the
    task name, which is [loss_mse] for [loss_nl] and [loss_mse] and
    [loss_cross_entropy] for [loss_xent].  When none of the three names is
    in use yet under the current name scope, each record carries its name
    under that scope; at the root scope the three tags are the three names
    as they are. *)
Theorem summary_names_when_unused
  (c : public_call) (g g' : graph) (total task reg : R)
  (summ : option summary) :
  count (lower (scoped (name_stack g) "loss_total")) (names_in_use g)
    = 0%nat ->
  count (lower (scoped (name_stack g) "loss_regularization_only"))
        (names_in_use g) = 0%nat ->
  count (lower (scoped (name_stack g) (task_name c))) (names_in_use g)
    = 0%nat ->
  invoke c true g = Ok ((total, task, reg, summ), g') ->
  summ = Some [ (scoped (name_stack g) "loss_total", total);
                (scoped (name_stack g) "loss_regularization_only", reg);
                (scoped (name_stack g) (task_name c), task) ]
  /\ match c with
     | CallNl _ _ _ => task_name c = "loss_mse"%string
     | CallMse _ _ => task_name c = "loss_mse"%string
     | CallXent _ _ => task_name c = "loss_cross_entropy"%string
     end
  /\ (name_stack g = EmptyString ->
      summ = Some [ ("loss_total"%string, total);
                    ("loss_regularization_only"%string, reg);
                    (task_name c, task) ]).
Proof.
  intros H1 H2 H3 Hrun. rewrite invoke_run in Hrun.
  destruct (task_loss c) as [t | e]; [| discriminate].
  cbv zeta in Hrun. inversion Hrun; subst; clear Hrun.
  assert (Htags :
    fst (total_name (with_loss g task)) = scoped (name_stack g) "loss_total"
    /\ fst (reg_name (with_loss g task))
       = scoped (name_stack g) "loss_regularization_only"
    /\ fst (loss_name_of (with_loss g task) (task_name c))
       = scoped (name_stack g) (task_name c)).
  { apply (helper_tags_unused (with_loss g task) (task_name c));
      try assumption; destruct c; discriminate. }
  destruct Htags as (Ht1 & Ht2 & Ht3).
  simpl concat. rewrite Ht1, Ht2, Ht3.
  split; [reflexivity |]. split; [destruct c; reflexivity |].
  intros Hroot. rewrite Hroot. reflexivity.
Qed.

Lemma summary_names_when_unused_witness :
  exists total task reg summ g',
    invoke (CallXent [0%Z] [[0]]) true fresh_graph =
      Ok ((total, task, reg, summ), g')
    /\ summ = Some [ ("loss_total"%string, total);
                     ("loss_regularization_only"%string, reg);
                     ("loss_cross_entropy"%string, task) ].
Proof.
  do 5 eexists. split.
  - rewrite invoke_run. unfold task_loss. simpl. reflexivity.
  - refine (proj1 (summary_names_when_unused
                     (CallXent [0%Z] [[0]]) fresh_graph _ _ _ _ _
                     eq_refl eq_refl eq_refl _)).
    rewrite invoke_run. unfold task_loss. simpl. reflexivity.
Defined.

(** C10. Two calls of a public function on the same tensors and the same
    graph that differ only in the summary flag return the same total, task
    and regularization loss, and fail alike when they fail. *)
Theorem summary_flag_numeric_independence (c : public_call) (g : graph) :
  numeric (invoke c true g) = numeric (invoke c false g).
Proof.
  rewrite !invoke_run.
  destruct (task_loss c) as [t | e]; reflexivity.
Qed.

(** ** The total loss in a graph that already holds a loss *)

Lemma invoke_quiet (c : public_call) (g : graph) (t : R) :
  task_loss c = Ok t ->
  invoke c false g =
  Ok ((add_n (LOSSES g) + t + add_n (REGULARIZATION_LOSSES g), t,
       add_n (REGULARIZATION_LOSSES g), None), with_loss g t).
Proof.
  intros Ht. rewrite invoke_run, Ht. cbv zeta. simpl LOSSES.
  simpl REGULARIZATION_LOSSES.
  replace (add_n ((LOSSES g ++ [t]) ++ REGULARIZATION_LOSSES g))
    with (add_n (LOSSES g) + t + add_n (REGULARIZATION_LOSSES g)).
  - reflexivity.
  - rewrite !add_n_app. simpl. lra.
Qed.

(** The total [_loss_helper] returns does not depend on the loss it is
    given. *)
Lemma loss_helper_total_ignores_loss
  (loss1 loss2 : R) (loss_name : string) (s : bool) (g : graph) :
  match _loss_helper loss1 loss_name s g, _loss_helper loss2 loss_name s g with
  | Ok ((total1, _, _), _), Ok ((total2, _, _), _) => total1 = total2
  | Raise e1, Raise e2 => e1 = e2
  | _, _ => False
  end.
Proof.
  destruct (LOSSES g ++ REGULARIZATION_LOSSES g) as [|x xs] eqn:He.
  - unfold _loss_helper, bind. rewrite !(get_total_loss_empty g He).
    reflexivity.
  - assert (Hne : LOSSES g ++ REGULARIZATION_LOSSES g <> [])
      by (rewrite He; discriminate).
    destruct s; [| now rewrite !(_loss_helper_quiet _ _ g Hne)].
    unfold _loss_helper, bind.
    rewrite (get_total_loss_run g Hne), get_regularization_loss_run.
    rewrite (summary_scalar_plain _ _ _ plain_loss_total).
    cbv beta iota zeta.
    rewrite (summary_scalar_plain _ _ _ plain_loss_regularization_only).
    cbv beta iota zeta.
    unfold summary_scalar.
    destruct (summary_scope _ _ _) as [[tag m] | e]; reflexivity.
Qed.

Lemma task_loss_mse_one :
  task_loss (CallMse (vector [1]) (vector [0])) = Ok 1.
Proof.
  unfold task_loss. rewrite shape_eqb_refl. f_equal.
  rewrite reduced_mean. simpl. field.
Qed.

Lemma task_loss_mse_zero :
  task_loss (CallMse (vector [0]) (vector [0])) = Ok 0.
Proof.
  unfold task_loss. rewrite shape_eqb_refl. f_equal.
  rewrite reduced_mean. simpl. field.
Qed.

Lemma task_loss_nl_zero :
  task_loss (CallNl [0] [(0, 0)] [2011%Z]) = Ok 0.
Proof.
  unfold task_loss.
  rewrite (where_spec_selected [2011%Z] [(0, 0)] eq_refl).
  change (spec_selected [2011%Z] [(0, 0)]) with [0].
  rewrite shape_eqb_refl. f_equal.
  rewrite reduced_mean. simpl. field.
Qed.

Lemma task_loss_xent_zero :
  task_loss (CallXent [0%Z] [[0]]) = Ok 0.
Proof.
  unfold task_loss. simpl. f_equal.
  rewrite reduced_mean. simpl.
  replace (0 - 0) with 0 by lra. rewrite exp_0.
  replace (1 + 0) with 1 by lra. rewrite ln_1. field.
Qed.

(** C1. The code at a second call in one graph: after
    [loss_mse([1.0], [0.0])] has registered its loss 1, the call
    [loss_mse([0.0], [0.0])] returns the task loss 0, the regularization
    loss 0 and the total loss 1, which is not their sum. *)
Theorem loss_total_after_earlier_call :
  exists total task reg summ g',
    (_ <- loss_mse (vector [1]) (vector [0]) false ;;
     loss_mse (vector [0]) (vector [0]) false)%tf fresh_graph
    = Ok ((total, task, reg, summ), g')
    /\ total = 1 /\ task = 0 /\ reg = 0 /\ total <> task + reg.
Proof.
  unfold bind.
  change (loss_mse (vector [1]) (vector [0]) false)
    with (invoke (CallMse (vector [1]) (vector [0])) false).
  rewrite (invoke_quiet _ _ _ task_loss_mse_one).
  change (loss_mse (vector [0]) (vector [0]) false)
    with (invoke (CallMse (vector [0]) (vector [0])) false).
  rewrite (invoke_quiet _ _ _ task_loss_mse_zero).
  do 5 eexists. split; [reflexivity |].
  simpl. repeat split; lra.
Qed.

(** C2. The code of [_loss_helper] at the input it receives in that second
    call: given the task loss 0 in a graph whose [LOSSES] collection holds
    1 and 0 and that has no regularization loss, it returns the total 1
    and the regularization loss 0; the total is not the loss it was given
    plus the regularization loss. *)
Theorem loss_helper_total_not_given_loss :
  exists total reg summ g',
    _loss_helper 0 "loss_mse"%string false
      (with_loss (with_loss fresh_graph 1) 0)
    = Ok ((total, reg, summ), g')
    /\ total = 1 /\ reg = 0 /\ total <> 0 + reg.
Proof.
  rewrite (_loss_helper_quiet _ _ _ (with_loss_nonempty _ _)).
  do 4 eexists. split; [reflexivity |].
  simpl. repeat split; lra.
Qed.

(** C6. The code in a graph without regularization losses that already
    holds the loss 1: each of the three public functions returns the
    regularization loss 0 and does not fail, and returns the task loss 0
    with the total loss 1, so the total is not the task loss. *)
Theorem total_not_task_without_regularization :
  let g := with_loss fresh_graph 1 in
  REGULARIZATION_LOSSES g = []
  /\ numeric (loss_nl [0] [(0, 0)] [2011%Z] false g) = Ok (1, 0, 0)
  /\ numeric (loss_mse (vector [0]) (vector [0]) false g) = Ok (1, 0, 0)
  /\ numeric (loss_xent [0%Z] [[0]] false g) = Ok (1, 0, 0)
  /\ 1 <> 0.
Proof.
  cbv zeta. split; [reflexivity |].
  change (loss_nl [0] [(0, 0)] [2011%Z] false)
    with (invoke (CallNl [0] [(0, 0)] [2011%Z]) false).
  change (loss_mse (vector [0]) (vector [0]) false)
    with (invoke (CallMse (vector [0]) (vector [0])) false).
  change (loss_xent [0%Z] [[0]] false)
    with (invoke (CallXent [0%Z] [[0]]) false).
  rewrite (invoke_quiet _ _ _ task_loss_nl_zero),
    (invoke_quiet _ _ _ task_loss_mse_zero),
    (invoke_quiet _ _ _ task_loss_xent_zero).
  simpl. replace (1 + 0 + 0 + 0) with 1 by lra.
  repeat split; try reflexivity. lra.
Qed.

(** C9. The code at the scenario's input in a graph that already holds a
    loss: after [loss_mse([1.0], [0.0])] has registered its loss 1, with no
    regularization loss, [loss_mse([1.0, 2.0, 3.0], [1.0, 2.0, 4.0])]
    returns the task loss 1/3 and the regularization loss 0, as the
    scenario says, and the total loss 4/3 where the scenario says 1/3. *)
Theorem loss_mse_scenario_after_earlier_call :
  exists total task reg summ g',
    (_ <- loss_mse (vector [1]) (vector [0]) false ;;
     loss_mse (vector [1; 2; 3]) (vector [1; 2; 4]) false)%tf fresh_graph
    = Ok ((total, task, reg, summ), g')
    /\ task = 1 / 3 /\ reg = 0 /\ total = 4 / 3 /\ total <> 1 / 3.
Proof.
  assert (Ht : task_loss (CallMse (vector [1; 2; 3]) (vector [1; 2; 4]))
               = Ok (1 / 3)).
  { unfold task_loss. rewrite shape_eqb_refl. f_equal.
    rewrite reduced_mean. simpl. field. }
  unfold bind.
  change (loss_mse (vector [1]) (vector [0]) false)
    with (invoke (CallMse (vector [1]) (vector [0])) false).
  rewrite (invoke_quiet _ _ _ task_loss_mse_one).
  change (loss_mse (vector [1; 2; 3]) (vector [1; 2; 4]) false)
    with (invoke (CallMse (vector [1; 2; 3]) (vector [1; 2; 4])) false).
  rewrite (invoke_quiet _ _ _ Ht).
  do 5 eexists. split; [reflexivity |].
  simpl. repeat split; lra.
Qed.

(** The claim C8 without its condition fails: on a second call with
    summaries in one graph the three names are in use, and the records
    carry the tags [loss_total_1], [loss_regularization_only_1] and
    [loss_mse_1]. *)
Lemma summary_names_second_call :
  exists total task reg bundle g',
    (_ <- loss_mse (vector [1]) (vector [0]) true ;;
     loss_mse (vector [0]) (vector [0]) true)%tf fresh_graph
    = Ok ((total, task, reg, Some bundle), g')
    /\ map fst bundle
       = ["loss_total_1"; "loss_regularization_only_1"; "loss_mse_1"]%string
    /\ bundle <> [ ("loss_total"%string, total);
                   ("loss_regularization_only"%string, reg);
                   ("loss_mse"%string, task) ].
Proof.
  unfold bind.
  change (loss_mse (vector [1]) (vector [0]) true)
    with (invoke (CallMse (vector [1]) (vector [0])) true).
  rewrite invoke_run, task_loss_mse_one. cbv beta iota zeta.
  change (loss_mse (vector [0]) (vector [0]) true)
    with (invoke (CallMse (vector [0]) (vector [0])) true).
  rewrite invoke_run, task_loss_mse_zero. cbv beta iota zeta.
  do 5 eexists. split; [reflexivity |].
  split; [reflexivity |].
  intros Heq. apply (f_equal (map fst)) in Heq. discriminate Heq.
Qed.

(** ** Further properties of the calls: totals and graph effects *)

(** Runs a public call whose tensors are concrete. *)
Ltac run_call :=
  rewrite invoke_run; unfold task_loss; rewrite ?shape_eqb_refl;
  cbv zeta; reflexivity.

(** What a successful call leaves in the two loss collections. *)
Lemma invoke_collections (c : public_call) (s : bool) (g g' : graph)
  (total task reg : R) (summ : option summary) :
  invoke c s g = Ok ((total, task, reg, summ), g') ->
  LOSSES g' = LOSSES g ++ [task]
  /\ REGULARIZATION_LOSSES g' = REGULARIZATION_LOSSES g.
Proof.
  intros Hrun. rewrite invoke_run in Hrun.
  destruct (task_loss c) as [t | e]; [| discriminate].
  cbv zeta in Hrun. inversion Hrun; subst; clear Hrun.
  destruct s; split; reflexivity.
Qed.

(** X1. The total a successful public call returns is the sum of the
    losses registered in the graph before the call, plus the task loss of
    the call, plus the sum of the regularization losses; the
    regularization loss returned is that last sum. *)
Theorem returned_total_formula (c : public_call) (s : bool) (g g' : graph)
  (total task reg : R) (summ : option summary) :
  invoke c s g = Ok ((total, task, reg, summ), g') ->
  total = add_n (LOSSES g) + task + add_n (REGULARIZATION_LOSSES g)
  /\ reg = add_n (REGULARIZATION_LOSSES g).
Proof.
  intros Hrun.
  destruct (invoke_inv _ _ _ _ _ _ _ _ Hrun) as (_ & Htot & Hreg). auto.
Qed.

Lemma returned_total_formula_witness :
  exists total task reg summ g',
    invoke (CallMse (vector [1]) (vector [3])) false
      (mkGraph [5] [2; 7] [] [] EmptyString) = Ok ((total, task, reg, summ), g')
    /\ total = add_n [5] + task + add_n [2; 7]
    /\ reg = add_n [2; 7].
Proof.
  do 5 eexists. split.
  - run_call.
  - eapply (returned_total_formula (CallMse (vector [1]) (vector [3]))
              false (mkGraph [5] [2; 7] [] [] EmptyString)).
    run_call.
Defined.

Lemma invoke_total_no_earlier_loss_witness :
  exists total task reg summ g',
    LOSSES (mkGraph [] [2; 7] [] [] EmptyString) = []
    /\ invoke (CallMse (vector [1]) (vector [3])) false
         (mkGraph [] [2; 7] [] [] EmptyString)
       = Ok ((total, task, reg, summ), g')
    /\ total = task + reg.
Proof.
  do 5 eexists. split; [reflexivity |]. split.
  - run_call.
  - eapply (invoke_total_no_earlier_loss
              (CallMse (vector [1]) (vector [3])) false
              (mkGraph [] [2; 7] [] [] EmptyString)).
    + reflexivity.
    + run_call.
Defined.



(** X4. When two public calls succeed one after the other in one graph,
    the second returns the same regularization loss as the first, and its
    total is the total of the first plus its own task loss. *)
Theorem totals_accumulate (c1 c2 : public_call) (s1 s2 : bool)
  (g g1 g2 : graph) (total1 task1 reg1 total2 task2 reg2 : R)
  (summ1 summ2 : option summary) :
  invoke c1 s1 g = Ok ((total1, task1, reg1, summ1), g1) ->
  invoke c2 s2 g1 = Ok ((total2, task2, reg2, summ2), g2) ->
  total2 = total1 + task2 /\ reg2 = reg1.
Proof.
  intros H1 H2.
  destruct (invoke_inv _ _ _ _ _ _ _ _ H1) as (_ & Ht1 & Hr1).
  destruct (invoke_inv _ _ _ _ _ _ _ _ H2) as (_ & Ht2 & Hr2).
  destruct (invoke_collections _ _ _ _ _ _ _ _ H1) as (Hl & Hr).
  rewrite Hl, Hr, add_n_app in Ht2. rewrite Hr in Hr2. simpl in Ht2.
  split; [lra | congruence].
Qed.

Lemma totals_accumulate_witness :
  exists total1 task1 reg1 summ1 g1 total2 task2 reg2 summ2 g2,
    invoke (CallMse (vector [1]) (vector [3])) false (mkGraph [] [2] [] [] EmptyString)
      = Ok ((total1, task1, reg1, summ1), g1)
    /\ invoke (CallNl [0] [(1, 4)] [2013%Z]) false g1
       = Ok ((total2, task2, reg2, summ2), g2)
    /\ total2 = total1 + task2 /\ reg2 = reg1.
Proof.
  do 10 eexists.
  assert (Hnl : task_loss (CallNl [0] [(1, 4)] [2013%Z])
                = Ok (reduced (squared_difference [4] [0]))).
  { unfold task_loss.
    rewrite (where_spec_selected [2013%Z] [(1, 4)] eq_refl).
    change (spec_selected [2013%Z] [(1, 4)]) with [4].
    now rewrite shape_eqb_refl. }
  split; [run_call |].
  split; [rewrite invoke_run, Hnl; cbv zeta; reflexivity |].
  eapply (totals_accumulate
            (CallMse (vector [1]) (vector [3])) (CallNl [0] [(1, 4)] [2013%Z])
            false false (mkGraph [] [2] [] [] EmptyString)).
  - run_call.
  - rewrite invoke_run, Hnl. cbv zeta. reflexivity.
Defined.

(** ** Failures *)

Lemma where_raise (cs : list bool) (x y : list R) (e : tf_error) :
  where_ cs x y = Raise e -> e = ShapeMismatch.
Proof.
  revert x y.
  induction cs as [|c cs IH]; intros [|a x] [|b y] H; simpl in H;
    try congruence.
  destruct (where_ cs x y) as [r | e'] eqn:Hw; [discriminate |].
  inversion H; subst. now apply (IH x y).
Qed.

Lemma where_length (cs : list bool) (x y r : list R) :
  where_ cs x y = Ok r ->
  length cs = length x /\ length r = length x.
Proof.
  revert x y r.
  induction cs as [|c cs IH]; intros [|a x] [|b y] r H; simpl in H;
    try discriminate.
  - inversion H; subst. auto.
  - destruct (where_ cs x y) as [r' | e] eqn:Hw; [| discriminate].
    inversion H; subst. destruct (IH _ _ _ Hw) as (H1 & H2).
    simpl. auto.
Qed.

Lemma shape_eqb_false (s1 s2 : list nat) :
  s1 <> s2 -> shape_eqb s1 s2 = false.
Proof.
  intros Hne. unfold shape_eqb.
  destruct (list_eq_dec Nat.eq_dec s1 s2); [contradiction | reflexivity].
Qed.

Lemma sparse_xent_row_raise (label : Z) (row : list R) (e : tf_error) :
  sparse_xent_row label row = Raise e -> e = LabelOutOfRange.
Proof.
  unfold sparse_xent_row.
  destruct (_ && _); [discriminate | congruence].
Qed.

Lemma sparse_xent_rows_raise
  (labels : list Z) (logits : list (list R)) (e : tf_error) :
  sparse_xent_rows labels logits = Raise e ->
  e = ShapeMismatch \/ e = LabelOutOfRange.
Proof.
  revert logits.
  induction labels as [|l ls IH]; intros [|row rows] H; simpl in H;
    try discriminate; try (left; congruence).
  destruct (sparse_xent_row l row) as [x | e'] eqn:Hrow.
  - destruct (sparse_xent_rows ls rows) as [xs | e''] eqn:Hrec;
      [discriminate |].
    inversion H; subst. now apply (IH rows).
  - inversion H; subst. right. now apply (sparse_xent_row_raise l row).
Qed.

Lemma sparse_softmax_cross_entropy_with_logits_raise
  (labels : list Z) (logits : list (list R)) (e : tf_error) :
  sparse_softmax_cross_entropy_with_logits labels logits = Raise e ->
  e = ShapeMismatch \/ e = LabelOutOfRange.
Proof.
  unfold sparse_softmax_cross_entropy_with_logits.
  destruct (_ =? _)%nat; [apply sparse_xent_rows_raise |].
  intros H. left. congruence.
Qed.

Lemma task_loss_raise (c : public_call) (e : tf_error) :
  task_loss c = Raise e -> e = ShapeMismatch \/ e = LabelOutOfRange.
Proof.
  destruct c as [labels preds years | labels preds | labels logits];
    unfold task_loss; intros Ht.
  - destruct (where_ _ _ _) as [sel | e'] eqn:Hw.
    + destruct (shape_eqb _ _); [discriminate | left; congruence].
    + inversion Ht; subst. left. now apply (where_raise _ _ _ _ Hw).
  - destruct (shape_eqb _ _); [discriminate | left; congruence].
  - destruct (sparse_softmax_cross_entropy_with_logits labels logits)
      as [ls | e'] eqn:Hx; [discriminate |].
    inversion Ht; subst.
    now apply (sparse_softmax_cross_entropy_with_logits_raise _ _ _ Hx).
Qed.

(** X5. A public call never fails with the empty-sum error of [tf.add_n],
    although [_loss_helper] sums a collection that can be empty: the call
    registers its task loss before [_loss_helper] reads the collection. *)
Theorem public_call_never_empty_sum
  (c : public_call) (s : bool) (g : graph) :
  match invoke c s g with
  | Raise EmptyAddN => False
  | _ => True
  end.
Proof.
  rewrite invoke_run.
  destruct (task_loss c) as [t | e] eqn:Ht; [exact I |].
  destruct (task_loss_raise c e Ht) as [-> | ->]; exact I.
Qed.

(** On a graph that holds a loss [_loss_helper] returns, or fails on the
    name it was given. *)
Lemma _loss_helper_nonempty (loss : R) (loss_name : string) (s : bool)
  (g : graph) :
  LOSSES g ++ REGULARIZATION_LOSSES g <> [] ->
  _loss_helper loss loss_name s g <> Raise EmptyAddN.
Proof.
  intros Hne.
  destruct s; [| now rewrite (_loss_helper_quiet _ _ g Hne)].
  unfold _loss_helper, bind.
  rewrite (get_total_loss_run g Hne), get_regularization_loss_run.
  rewrite (summary_scalar_plain _ _ _ plain_loss_total).
  cbv beta iota zeta.
  rewrite (summary_scalar_plain _ _ _ plain_loss_regularization_only).
  cbv beta iota zeta.
  destruct (summary_scalar loss_name loss _) as [[s3 g3] | e] eqn:Hs.
  - discriminate.
  - rewrite (summary_scalar_raise _ _ _ _ Hs). discriminate.
Qed.

(** X6. Called on its own, [_loss_helper] fails with the empty-sum error
    of [tf.add_n] exactly when the graph holds neither a loss nor a
    regularization loss; the loss it is given does not prevent it. *)
Theorem loss_helper_fails_iff_no_loss
  (loss : R) (loss_name : string) (s : bool) (g : graph) :
  _loss_helper loss loss_name s g = Raise EmptyAddN
  <-> (LOSSES g = [] /\ REGULARIZATION_LOSSES g = []).
Proof.
  split.
  - intros Hrun.
    destruct (LOSSES g ++ REGULARIZATION_LOSSES g) as [|x xs] eqn:He.
    + now apply app_eq_nil.
    + assert (Hne : LOSSES g ++ REGULARIZATION_LOSSES g <> [])
        by (rewrite He; discriminate).
      now destruct (_loss_helper_nonempty loss loss_name s g Hne).
  - intros (Hl & Hr). unfold _loss_helper, bind.
    rewrite get_total_loss_empty; [reflexivity |].
    now rewrite Hl, Hr.
Qed.

(** X7. [loss_nl] fails with a shape mismatch whenever the years, the
    prediction rows and the labels are not of one batch length. *)
Theorem loss_nl_shape_mismatch
  (labels : list R) (preds : list (R * R)) (years : list Z)
  (s : bool) (g : graph) :
  length years <> length preds \/ length preds <> length labels ->
  loss_nl labels preds years s g = Raise ShapeMismatch.
Proof.
  intros Hlen.
  change (loss_nl labels preds years s g)
    with (invoke (CallNl labels preds years) s g).
  rewrite invoke_run. unfold task_loss.
  destruct (where_ _ _ _) as [sel | e] eqn:Hw.
  - destruct (where_length _ _ _ _ Hw) as (Hc & Hs).
    rewrite !length_map in Hc. rewrite length_map in Hs.
    destruct Hlen as [Hlen | Hlen]; [contradiction |].
    rewrite shape_eqb_false; [reflexivity |].
    simpl. intros Heq. inversion Heq. congruence.
  - now rewrite (where_raise _ _ _ _ Hw).
Qed.

Lemma loss_nl_shape_mismatch_witness :
  (length [2011%Z] <> length [(1, 5)]
   \/ length [(1, 5)] <> length [1; 2])
  /\ loss_nl [1; 2] [(1, 5)] [2011%Z] true fresh_graph = Raise ShapeMismatch.
Proof.
  split.
  - right. discriminate.
  - apply (loss_nl_shape_mismatch [1; 2] [(1, 5)] [2011%Z] true fresh_graph).
    right. discriminate.
Defined.

Lemma sparse_xent_row_out_of_range (label : Z) (row : list R) :
  (label < 0 \/ Z.of_nat (length row) <= label)%Z ->
  sparse_xent_row label row = Raise LabelOutOfRange.
Proof.
  intros Hl. unfold sparse_xent_row.
  destruct (Z.leb_spec 0 label); simpl; [| reflexivity].
  destruct (Z.ltb_spec label (Z.of_nat (length row))); [lia | reflexivity].
Qed.

Lemma sparse_softmax_cross_entropy_with_logits_out_of_range
  (num_classes : nat) (labels : list Z) (logits : list (list R)) :
  length logits = length labels ->
  Forall (fun row => length row = num_classes) logits ->
  Exists (fun label => (label < 0 \/ Z.of_nat num_classes <= label)%Z)
         labels ->
  sparse_softmax_cross_entropy_with_logits labels logits
  = Raise LabelOutOfRange.
Proof.
  intros Hlen0.
  rewrite (sparse_softmax_cross_entropy_with_logits_rows _ _ Hlen0).
  revert Hlen0. revert logits.
  induction labels as [|l ls IH]; intros [|row rows] Hlen Hrows Hbad;
    simpl in *; try discriminate.
  - inversion Hbad.
  - inversion Hrows as [|? ? Hrow Hrows']; subst.
    inversion Hbad as [? ? Hl | ? ? Hls]; subst.
    + now rewrite sparse_xent_row_out_of_range.
    + destruct (sparse_xent_row l row) as [x | e] eqn:Hx.
      * rewrite (IH rows); auto.
      * now rewrite (sparse_xent_row_raise _ _ _ Hx).
Qed.

(** X8. With one row of [num_classes] logits per label, [loss_xent] fails
    with a label-out-of-range error as soon as one label is negative or
    not below [num_classes]. *)
Theorem loss_xent_label_out_of_range
  (num_classes : nat) (labels : list Z) (logits : list (list R))
  (s : bool) (g : graph) :
  length logits = length labels ->
  Forall (fun row => length row = num_classes) logits ->
  Exists (fun label => (label < 0 \/ Z.of_nat num_classes <= label)%Z)
         labels ->
  loss_xent labels logits s g = Raise LabelOutOfRange.
Proof.
  intros Hlen Hrows Hbad.
  change (loss_xent labels logits s g)
    with (invoke (CallXent labels logits) s g).
  rewrite invoke_run. unfold task_loss.
  now rewrite (sparse_softmax_cross_entropy_with_logits_out_of_range
                 num_classes).
Qed.

Lemma loss_xent_label_out_of_range_witness :
  (length [[2; 1 / 2]; [1 / 5; 3 / 2]] = length [0%Z; 2%Z]
   /\ Forall (fun row => length row = 2%nat) [[2; 1 / 2]; [1 / 5; 3 / 2]]
   /\ Exists (fun label => (label < 0 \/ Z.of_nat 2 <= label)%Z)
             [0%Z; 2%Z])
  /\ loss_xent [0%Z; 2%Z] [[2; 1 / 2]; [1 / 5; 3 / 2]] true fresh_graph
     = Raise LabelOutOfRange.
Proof.
  assert (Hbad : Exists (fun label => (label < 0 \/ Z.of_nat 2 <= label)%Z)
                        [0%Z; 2%Z]).
  { apply Exists_cons_tl. apply Exists_cons_hd. right. simpl. lia. }
  split.
  - split; [reflexivity |]. split; [repeat constructor | exact Hbad].
  - apply (loss_xent_label_out_of_range
             2 [0%Z; 2%Z] [[2; 1 / 2]; [1 / 5; 3 / 2]] true fresh_graph).
    + reflexivity.
    + repeat constructor.
    + exact Hbad.
Defined.

(** ** The value of the mean squared error *)






Lemma squared_difference_sym (xs ys : list R) :
  squared_difference xs ys = squared_difference ys xs.
Proof.
  revert ys.
  induction xs as [|x xs IH]; intros [|y ys]; simpl; try reflexivity.
  rewrite IH. f_equal. ring.
Qed.

Lemma shape_eqb_sym (s1 s2 : list nat) : shape_eqb s1 s2 = shape_eqb s2 s1.
Proof.
  unfold shape_eqb.
  destruct (list_eq_dec Nat.eq_dec s1 s2), (list_eq_dec Nat.eq_dec s2 s1);
    congruence.
Qed.

(** X10. [loss_mse] is symmetric in its two tensors: exchanging labels and
    predictions gives the same losses, the same summary, the same graph,
    and the same failure when the shapes differ. *)
Theorem loss_mse_symmetric (labels preds : tensor) (s : bool) (g : graph) :
  loss_mse labels preds s g = loss_mse preds labels s g.
Proof.
  unfold loss_mse, mean_squared_error.
  rewrite (shape_eqb_sym (shape preds) (shape labels)).
  now rewrite (squared_difference_sym (values preds) (values labels)).
Qed.

(** X11. On an empty batch [loss_nl] and [loss_mse] succeed with the task
    loss 0: the division by the number of present entries is the
    framework's safe division, which gives 0 for a zero divisor. *)
Theorem empty_batch_mse_task_loss (sh : list nat) (s : bool) (g : graph) :
  (exists total reg summ g',
     loss_nl [] [] [] s g = Ok ((total, 0, reg, summ), g'))
  /\ (exists total reg summ g',
        loss_mse (mkTensor sh []) (mkTensor sh []) s g
        = Ok ((total, 0, reg, summ), g')).
Proof.
  assert (H0 : reduced [] = 0).
  { rewrite reduced_mean. simpl. unfold Rdiv. lra. }
  assert (Hnl : task_loss (CallNl [] [] []) = Ok 0).
  { unfold task_loss. rewrite (where_spec_selected [] [] eq_refl).
    change (spec_selected [] []) with (@nil R). rewrite shape_eqb_refl.
    simpl squared_difference. now rewrite H0. }
  assert (Hmse : task_loss (CallMse (mkTensor sh []) (mkTensor sh [])) = Ok 0).
  { unfold task_loss. rewrite shape_eqb_refl.
    simpl squared_difference. now rewrite H0. }
  split.
  - destruct (invoke_ok _ s g _ Hnl) as (summ & g' & Hrun). eauto.
  - destruct (invoke_ok _ s g _ Hmse) as (summ & g' & Hrun). eauto.
Qed.

(** ** The value of the cross-entropy *)







(** ** The nightlights selection, continued *)

Lemma spec_selected_agree (years : list Z) (preds preds' : list (R * R)) :
  length preds = length years ->
  length preds' = length years ->
  (forall i year p p',
      nth_error years i = Some year ->
      nth_error preds i = Some p ->
      nth_error preds' i = Some p' ->
      ((year < 2012)%Z -> fst p = fst p')
      /\ ((2012 <= year)%Z -> snd p = snd p')) ->
  spec_selected years preds = spec_selected years preds'.
Proof.
  revert preds preds'.
  induction years as [|y ys IH]; intros [|p ps] [|p' ps'] Hl Hl' Hagree;
    simpl in *; try discriminate; try reflexivity.
  f_equal.
  - destruct (Hagree 0%nat y p p' eq_refl eq_refl eq_refl) as (Hlt & Hge).
    unfold spec_select. destruct (Z.ltb_spec y 2012); auto.
  - apply IH; try lia.
    intros i year q q' Hy Hq Hq'.
    exact (Hagree (S i) year q q' Hy Hq Hq').
Qed.

(** X13. The prediction of the sensor that is not selected plays no part:
    two batches of prediction pairs that agree, example by example, on the
    DMSP prediction where the year is below 2012 and on the VIIRS
    prediction where it is 2012 or later give the same result of
    [loss_nl]. *)
Theorem loss_nl_ignores_unselected
  (labels : list R) (preds preds' : list (R * R)) (years : list Z)
  (s : bool) (g : graph) :
  length preds = length years ->
  length preds' = length years ->
  (forall i year p p',
      nth_error years i = Some year ->
      nth_error preds i = Some p ->
      nth_error preds' i = Some p' ->
      ((year < 2012)%Z -> fst p = fst p')
      /\ ((2012 <= year)%Z -> snd p = snd p')) ->
  loss_nl labels preds years s g = loss_nl labels preds' years s g.
Proof.
  intros Hl Hl' Hagree.
  rewrite (loss_nl_after_where labels preds years
             (spec_selected years preds) s g)
    by (apply where_spec_selected; congruence).
  rewrite (loss_nl_after_where labels preds' years
             (spec_selected years preds') s g)
    by (apply where_spec_selected; congruence).
  now rewrite (spec_selected_agree years preds preds').
Qed.

Lemma loss_nl_ignores_unselected_witness :
  loss_nl [1; 2] [(1, 5); (7, 2)] [2011%Z; 2012%Z] true fresh_graph
  = loss_nl [1; 2] [(1, 9); (8, 2)] [2011%Z; 2012%Z] true fresh_graph.
Proof.
  apply (loss_nl_ignores_unselected
           [1; 2] [(1, 5); (7, 2)] [(1, 9); (8, 2)] [2011%Z; 2012%Z]
           true fresh_graph).
  - reflexivity.
  - reflexivity.
  - intros [|[|[|i]]] year p p' Hy Hp Hp'; simpl in *; try discriminate;
      inversion Hy; inversion Hp; inversion Hp'; subst; cbn [fst snd];
      split; intros Hyear; try reflexivity; exfalso; lia.
Defined.

(** X14. On a batch of one length [loss_nl] is [loss_mse] applied to the
    labels and to the vector that holds, for each example, the prediction
    of the sensor its year selects: same losses, same summary, same
    graph, and the same failure when the labels are of another length. *)
Theorem loss_nl_is_loss_mse_of_selection
  (labels : list R) (preds : list (R * R)) (years : list Z)
  (s : bool) (g : graph) :
  length years = length preds ->
  exists sel,
    length sel = length preds
    /\ (forall i year pred,
          nth_error years i = Some year ->
          nth_error preds i = Some pred ->
          nth_error sel i =
          Some (if (year <? 2012)%Z then fst pred else snd pred))
    /\ loss_nl labels preds years s g =
       loss_mse (vector labels) (vector sel) s g.
Proof.
  intros Hlen. exists (spec_selected years preds).
  split; [now apply spec_selected_length |].
  split.
  - intros i year pred Hi Hj.
    now rewrite (spec_selected_nth _ _ _ _ _ Hi Hj).
  - apply loss_nl_after_where. now apply where_spec_selected.
Qed.

Lemma loss_nl_is_loss_mse_of_selection_witness :
  length [2011%Z; 2012%Z] = length [(1, 5); (7, 2)]
  /\ exists sel,
       length sel = length [(1, 5); (7, 2)]
       /\ (forall i year pred,
             nth_error [2011%Z; 2012%Z] i = Some year ->
             nth_error [(1, 5); (7, 2)] i = Some pred ->
             nth_error sel i =
             Some (if (year <? 2012)%Z then fst pred else snd pred))
       /\ loss_nl [1; 2] [(1, 5); (7, 2)] [2011%Z; 2012%Z] true fresh_graph =
          loss_mse (vector [1; 2]) (vector sel) true fresh_graph.
Proof.
  split; [reflexivity |].
  apply (loss_nl_is_loss_mse_of_selection
           [1; 2] [(1, 5); (7, 2)] [2011%Z; 2012%Z] true fresh_graph).
  reflexivity.
Defined.

(** ** Shapes and shifts *)

(** X15. [loss_mse] fails with a shape mismatch exactly when the static
    shapes of its two tensors differ. *)
Theorem loss_mse_fails_iff_shapes_differ
  (labels preds : tensor) (s : bool) (g : graph) :
  loss_mse labels preds s g = Raise ShapeMismatch
  <-> shape preds <> shape labels.
Proof.
  change (loss_mse labels preds s g)
    with (invoke (CallMse labels preds) s g).
  rewrite invoke_run. unfold task_loss, shape_eqb.
  destruct (list_eq_dec Nat.eq_dec (shape preds) (shape labels)) as [He | Hne].
  - cbv zeta. split; [discriminate | contradiction].
  - split; [intros _; exact Hne | reflexivity].
Qed.

Lemma Rmax_shift (a b c : R) : Rmax (a + c) (b + c) = Rmax a b + c.
Proof.
  unfold Rmax.
  destruct (Rle_dec (a + c) (b + c)), (Rle_dec a b); lra.
Qed.

Lemma reduce_max_shift (row : list R) (c : R) :
  row <> [] ->
  reduce_max (map (fun z => z + c) row) = reduce_max row + c.
Proof.
  destruct row as [|z zs]; [congruence | intros _; simpl].
  induction zs as [|y ys IH]; simpl; [reflexivity |].
  rewrite IH. apply Rmax_shift.
Qed.

Lemma sparse_xent_row_shift (label : Z) (row : list R) (c : R) :
  sparse_xent_row label (map (fun z => z + c) row)
  = sparse_xent_row label row.
Proof.
  unfold sparse_xent_row. rewrite length_map.
  destruct (_ && _) eqn:Hin; [| reflexivity].
  assert (Hne : row <> []).
  { destruct row; [| discriminate]. simpl in Hin.
    apply andb_prop in Hin. destruct Hin as (H0 & H1).
    apply Z.leb_le in H0. apply Z.ltb_lt in H1. lia. }
  cbv zeta. rewrite (reduce_max_shift row c Hne).
  assert (Hs : map (fun z => z - (reduce_max row + c))
                   (map (fun z => z + c) row)
               = map (fun z => z - reduce_max row) row).
  { rewrite map_map. apply map_ext. intros z. lra. }
  now rewrite Hs.
Qed.

Lemma sparse_xent_rows_shift
  (labels : list Z) (logits : list (list R)) (c : R) :
  sparse_xent_rows labels (map (map (fun z => z + c)) logits)
  = sparse_xent_rows labels logits.
Proof.
  revert logits.
  induction labels as [|l ls IH]; intros [|row rows]; simpl;
    try reflexivity.
  now rewrite sparse_xent_row_shift, IH.
Qed.

Lemma sparse_softmax_cross_entropy_with_logits_shift
  (labels : list Z) (logits : list (list R)) (c : R) :
  sparse_softmax_cross_entropy_with_logits labels
    (map (map (fun z => z + c)) logits)
  = sparse_softmax_cross_entropy_with_logits labels logits.
Proof.
  unfold sparse_softmax_cross_entropy_with_logits.
  now rewrite length_map, sparse_xent_rows_shift.
Qed.

(** X16. Adding one constant to every logit changes nothing of what
    [loss_xent] returns: the losses, the summary, the graph and the
    failures are the same. *)
Theorem loss_xent_shift_invariant
  (labels : list Z) (logits : list (list R)) (c : R) (s : bool) (g : graph) :
  loss_xent labels (map (map (fun z => z + c)) logits) s g
  = loss_xent labels logits s g.
Proof.
  unfold loss_xent, sparse_softmax_cross_entropy.
  now rewrite sparse_softmax_cross_entropy_with_logits_shift.
Qed.
